(** * arena: a bump-pointer arena allocator (include/arena/arena.hpp)

    A shallow embedding of [arena::Arena], [Arena::Mark] and [Arena::Scope],
    followed by the properties of the allocator proved on it.

    - [std::size_t] and addresses are [w]-bit unsigned integers: values of
      [Z] in [0, 2^w), every arithmetic operation followed by its
      wrap-around.
    - A pointer is the address it holds; [nullptr] is address 0.
    - C++ objects have identity: arenas and scopes live in a store and are
      named by their index, so that a [Scope] can keep a pointer to its
      arena and [this != &other] can be tested. *)

From stdpp Require Import base numbers list.

Local Open Scope Z_scope.

(** ** Exceptions *)

(** [std::bad_alloc] is the only exception the arena throws;
    [std::invalid_argument] is the standard library's exception for a bad
    argument, which nothing in the arena throws. *)
Inductive exception : Type :=
  | bad_alloc
  | invalid_argument.

Inductive result (A : Type) : Type :=
  | Return (x : A)
  | Throw (e : exception).

Arguments Return {A} x.
Arguments Throw {A} e.

(** ** Data *)

Definition nullptr : Z := 0.

(** [std::vector<std::byte>], as far as the arena looks at it: the address
    [data()] of its storage and its [size()] in bytes. *)
Record vector : Type := { data : Z; vsize : Z }.

(** [struct Mark { std::size_t offset = 0; }] *)
Record Mark : Type := { offset : Z }.

(** The data members of [class Arena]. *)
Record Arena : Type := { buffer_ : vector; offset_ : Z }.

(** The data members of [class Scope]: [Arena *a_] is the index of the
    arena in the store, [None] for a null pointer. *)
Record Scope : Type := { a_ : option nat; m_ : Mark }.

(** What the arena uses of an element type [T]: [sizeof(T)], [alignof(T)]
    and [std::is_trivially_default_constructible_v<T>]. *)
Record ctype : Type :=
  { sizeof : Z; alignof : Z; trivially_default_constructible : bool }.

(** The objects of a program: its arenas and its scopes. *)
Record State : Type := { arenas : list Arena; scopes : list Scope }.

(** [std::vector]'s constructor [vector(n)]: [n] bytes at the address
    [storage] the system allocator hands out; an empty vector has no
    storage. *)
Definition vector_ctor (storage n : Z) : vector :=
  {| data := if n =? 0 then nullptr else storage; vsize := n |}.

(** A moved-from [std::vector] is empty: its storage now belongs to the
    destination of the move. The standard guarantees it of the move
    constructor; the move assignment of a vector with the default
    allocator takes the storage in the same way. *)
Definition vector_moved_from : vector := {| data := nullptr; vsize := 0 |}.

(** [std::move] of a vector into another: the destination and what is
    left of [other]. *)
Definition vector_move (other : vector) : vector * vector :=
  (other, vector_moved_from).

Section SizeT.

(** Number of bits of [std::size_t] (and of an address). *)
Variable w : Z.

(** *** Arithmetic of [std::size_t] *)

Definition wrap (x : Z) : Z := x mod 2 ^ w.

Definition size_add (x y : Z) : Z := wrap (x + y).
Definition size_sub (x y : Z) : Z := wrap (x - y).
Definition size_mul (x y : Z) : Z := wrap (x * y).
Definition size_not (x : Z) : Z := wrap (Z.lnot x).

(** [return x != 0 && (x & (x - 1)) == 0;] *)
Definition is_power_of_two (x : Z) : bool :=
  negb (x =? 0) && (Z.land x (size_sub x 1) =? 0).

(** [return (value + (alignment - 1)) & ~(alignment - 1);] *)
Definition align_up (value alignment : Z) : Z :=
  Z.land (size_add value (size_sub alignment 1))
         (size_not (size_sub alignment 1)).

(** *** Queries *)

Definition capacity (a : Arena) : Z := vsize (buffer_ a).
Definition used (a : Arena) : Z := offset_ a.
Definition remaining (a : Arena) : Z := size_sub (capacity a) (used a).
Definition empty (a : Arena) : bool := offset_ a =? 0.

(** [x >= b && x < e] with [b = buffer_.data()] and
    [e = b + buffer_.size()]. *)
Definition owns (a : Arena) (p : Z) : bool :=
  let b := data (buffer_ a) in
  let e := b + vsize (buffer_ a) in
  (b <=? p) && (p <? e).

(** *** Construction *)

(** [explicit Arena(std::size_t capacity_bytes)] *)
Definition Arena_ctor (storage capacity_bytes : Z) : Arena :=
  {| buffer_ := vector_ctor storage capacity_bytes; offset_ := 0 |}.

(** *** Allocation *)

(** [void *try_allocate(std::size_t size, std::size_t alignment) noexcept]:
    the pointer returned and the arena afterwards. *)
Definition try_allocate (a : Arena) (size alignment : Z) : Z * Arena :=
  let size := if size =? 0 then 1 else size in
  if negb (is_power_of_two alignment) then (nullptr, a)
  else
    let base := data (buffer_ a) in
    let current := size_add base (offset_ a) in
    let aligned := align_up current alignment in
    let new_offset := size_add (size_sub aligned base) size in
    if new_offset >? vsize (buffer_ a) then (nullptr, a)
    else (aligned, {| buffer_ := buffer_ a; offset_ := new_offset |}).

(** [void *allocate(std::size_t size, std::size_t alignment)] *)
Definition allocate (a : Arena) (size alignment : Z) : result Z * Arena :=
  let '(p, a') := try_allocate a size alignment in
  if p =? nullptr then (Throw bad_alloc, a') else (Return p, a').

(** [T *make(Args &&...args)]: the object is constructed in the block
    [allocate] returns; its contents are not part of the arena's state. *)
Definition make (a : Arena) (T : ctype) : result Z * Arena :=
  allocate a (sizeof T) (alignof T).

(** [T *make_array(std::size_t count)]: whether the elements are left
    uninitialized or default-constructed in place, the pointer returned is
    the one [allocate] returned, and the arena is as [allocate] left it. *)
Definition make_array (a : Arena) (T : ctype) (count : Z)
  : result Z * Arena :=
  if count =? 0 then (Return nullptr, a)
  else allocate a (size_mul (sizeof T) count) (alignof T).

(** *** Checkpoints *)

Definition reset (a : Arena) : Arena :=
  {| buffer_ := buffer_ a; offset_ := 0 |}.

Definition mark (a : Arena) : Mark := {| offset := offset_ a |}.

(** [if (m.offset <= buffer_.size()) offset_ = m.offset;] *)
Definition rewind (a : Arena) (m : Mark) : Arena :=
  if offset m <=? vsize (buffer_ a)
  then {| buffer_ := buffer_ a; offset_ := offset m |}
  else a.

(** *** Moving an arena *)

(** [Arena(Arena &&other) noexcept
      : buffer_(std::move(other.buffer_)), offset_(other.offset_)
    { other.offset_ = 0; }]: the new arena and what is left of [other]. *)
Definition Arena_move_ctor (other : Arena) : Arena * Arena :=
  let '(buffer, moved) := vector_move (buffer_ other) in
  ({| buffer_ := buffer; offset_ := offset_ other |},
   {| buffer_ := moved; offset_ := 0 |}).

(** The body of [Arena &operator=(Arena &&other) noexcept] under
    [this != &other]: [*this] and [other] afterwards. The buffer [*this]
    had is released. *)
Definition Arena_move_assign (this other : Arena) : Arena * Arena :=
  let '(buffer, moved) := vector_move (buffer_ other) in
  ({| buffer_ := buffer; offset_ := offset_ other |},
   {| buffer_ := moved; offset_ := 0 |}).

(** ** Operations on the objects of a program

    An index outside the store stands for a dangling pointer or reference,
    which a program with defined behaviour never uses: a statement on such
    an index does nothing. *)

(** A request to one of the allocating members. *)
Inductive request : Type :=
  | req_try_allocate (size alignment : Z)
  | req_allocate (size alignment : Z)
  | req_make (T : ctype)
  | req_make_array (T : ctype) (count : Z).

(** The arena after a request; an exception thrown by the request leaves
    the arena as the throwing call left it. *)
Definition serve (r : request) (a : Arena) : Arena :=
  match r with
  | req_try_allocate size alignment => snd (try_allocate a size alignment)
  | req_allocate size alignment => snd (allocate a size alignment)
  | req_make T => snd (make a T)
  | req_make_array T count => snd (make_array a T count)
  end.

Definition serve_all (rs : list request) (a : Arena) : Arena :=
  fold_left (fun ar r => serve r ar) rs a.

Definition with_arenas (st : State) (l : list Arena) : State :=
  {| arenas := l; scopes := scopes st |}.

Definition with_scopes (st : State) (l : list Scope) : State :=
  {| arenas := arenas st; scopes := l |}.

(** [explicit Scope(Arena &a) noexcept : a_(&a), m_(a.mark()) {}]: the new
    scope is the last of the store. *)
Definition Scope_ctor (st : State) (a : nat) : State :=
  match arenas st !! a with
  | Some ar =>
      with_scopes st (scopes st ++ [{| a_ := Some a; m_ := mark ar |}])
  | None => st
  end.

(** [~Scope() { if (a_) a_->rewind(m_); }] *)
Definition Scope_dtor (st : State) (s : nat) : State :=
  match scopes st !! s with
  | Some sc =>
      match a_ sc with
      | Some a =>
          with_arenas st (alter (fun ar => rewind ar (m_ sc)) a (arenas st))
      | None => st
      end
  | None => st
  end.

(** [Scope(Scope &&other) noexcept : a_(other.a_), m_(other.m_)
    { other.a_ = nullptr; }] *)
Definition Scope_move_ctor (st : State) (other : nat) : State :=
  match scopes st !! other with
  | Some o =>
      with_scopes st
        (<[other := {| a_ := None; m_ := m_ o |}]> (scopes st)
           ++ [{| a_ := a_ o; m_ := m_ o |}])
  | None => st
  end.

(** [Scope &operator=(Scope &&other) noexcept] *)
Definition Scope_move_assign (st : State) (this other : nat) : State :=
  if decide (this = other) then st
  else
    match scopes st !! this, scopes st !! other with
    | Some t, Some o =>
        let rewound :=
          match a_ t with
          | Some a => alter (fun ar => rewind ar (m_ t)) a (arenas st)
          | None => arenas st
          end in
        {| arenas := rewound;
           scopes :=
             <[other := {| a_ := None; m_ := m_ o |}]>
               (<[this := {| a_ := a_ o; m_ := m_ o |}]> (scopes st)) |}
    | _, _ => st
    end.

(** One statement of a program that uses arenas. *)
Inductive op : Type :=
  | new_Arena (storage capacity_bytes : Z)
  | move_Arena (other : nat)
  | assign_Arena (this other : nat)
  | call_request (a : nat) (r : request)
  | call_reset (a : nat)
  | call_rewind (a : nat) (m : Mark)
  | new_Scope (a : nat)
  | move_Scope (other : nat)
  | assign_Scope (this other : nat)
  | delete_Scope (s : nat).

Definition step (st : State) (o : op) : State :=
  match o with
  | new_Arena storage capacity_bytes =>
      with_arenas st (arenas st ++ [Arena_ctor storage capacity_bytes])
  | move_Arena other =>
      match arenas st !! other with
      | Some ar =>
          let '(new, src) := Arena_move_ctor ar in
          with_arenas st (<[other := src]> (arenas st) ++ [new])
      | None => st
      end
  | assign_Arena this other =>
      if decide (this = other) then st
      else
        match arenas st !! this, arenas st !! other with
        | Some t, Some ar =>
            let '(t', src) := Arena_move_assign t ar in
            with_arenas st (<[other := src]> (<[this := t']> (arenas st)))
        | _, _ => st
        end
  | call_request a r => with_arenas st (alter (serve r) a (arenas st))
  | call_reset a => with_arenas st (alter reset a (arenas st))
  | call_rewind a m =>
      with_arenas st (alter (fun ar => rewind ar m) a (arenas st))
  | new_Scope a => Scope_ctor st a
  | move_Scope other => Scope_move_ctor st other
  | assign_Scope this other => Scope_move_assign st this other
  | delete_Scope s => Scope_dtor st s
  end.

Definition run (st : State) (ops : list op) : State := fold_left step ops st.

Definition no_objects : State := {| arenas := []; scopes := [] |}.

(** A block of statements with lexically nested scopes:
    [Scoped a body k] is [{ Arena::Scope s(a); body } k]. *)
Inductive block : Type :=
  | Done
  | Request (a : nat) (r : request) (k : block)
  | Scoped (a : nat) (body : block) (k : block).

Fixpoint exec (b : block) (st : State) : State :=
  match b with
  | Done => st
  | Request a r k => exec k (step st (call_request a r))
  | Scoped a body k =>
      let s := length (scopes st) in
      exec k (Scope_dtor (exec body (Scope_ctor st a)) s)
  end.

(** ** Well-formed values *)

(** A value of type [std::size_t]. *)
Definition size_t_val (x : Z) : Prop := 0 <= x < 2 ^ w.

(** [x] is a power of two. *)
Definition power_of_two (x : Z) : Prop := exists k, 0 <= k /\ x = 2 ^ k.

(** The smallest multiple of [alignment] that is not below [value]. *)
Definition round_up (value alignment : Z) : Z :=
  alignment * ((value + alignment - 1) / alignment).

(** The storage of a vector lies inside the address space, its
    one-past-the-end address included, and is not at the null address
    unless the vector is empty. *)
Definition vector_ok (v : vector) : Prop :=
  0 <= data v /\ 0 <= vsize v /\ data v + vsize v < 2 ^ w /\
  (0 < vsize v -> 0 < data v).

(** The invariant of the arena: [0 <= offset <= capacity]. *)
Definition arena_inv (a : Arena) : Prop := 0 <= offset_ a <= capacity a.

Definition arena_ok (a : Arena) : Prop :=
  vector_ok (buffer_ a) /\ arena_inv a.

(** The invariant of a program's objects: every arena satisfies its
    invariant and every scope holds a mark that [mark()] can return. *)
Definition state_inv (st : State) : Prop :=
  Forall arena_inv (arenas st) /\
  Forall (fun sc => 0 <= offset (m_ sc)) (scopes st).

(** [st'] has the objects of [st], each arena with the buffer it had and
    each scope as it was. *)
Definition extends (st st' : State) : Prop :=
  (forall i a, arenas st !! i = Some a ->
     exists a', arenas st' !! i = Some a' /\ buffer_ a' = buffer_ a) /\
  (forall s sc, scopes st !! s = Some sc -> scopes st' !! s = Some sc).

(** The statement does not move the arena [i], as source or as
    destination. *)
Definition keeps_arena (i : nat) (o : op) : Prop :=
  match o with
  | move_Arena other => other <> i
  | assign_Arena this other => this <> i /\ other <> i
  | _ => True
  end.

(** The statement does not move the scope [s], as source or as
    destination. *)
Definition keeps_scope (s : nat) (o : op) : Prop :=
  match o with
  | move_Scope other => other <> s
  | assign_Scope this other => this <> s /\ other <> s
  | _ => True
  end.

(** In [st'] the arena [i] has the buffer it had in [st] and the scope
    [s] is as it was. *)
Definition kept (i s : nat) (st st' : State) : Prop :=
  (forall a, arenas st !! i = Some a ->
     exists a', arenas st' !! i = Some a' /\ buffer_ a' = buffer_ a) /\
  (forall sc, scopes st !! s = Some sc -> scopes st' !! s = Some sc).

(** The size a request is served with: [if (size == 0) size = 1;]. *)
Definition size_or_1 (size : Z) : Z := if size =? 0 then 1 else size.

Definition ctype_typed (T : ctype) : Prop :=
  size_t_val (sizeof T) /\ size_t_val (alignof T).

Definition request_typed (r : request) : Prop :=
  match r with
  | req_try_allocate size alignment
  | req_allocate size alignment => size_t_val size /\ size_t_val alignment
  | req_make T => ctype_typed T
  | req_make_array T count => ctype_typed T /\ size_t_val count
  end.

(** The arguments of a statement are values of their C++ types. *)
Definition op_typed (o : op) : Prop :=
  match o with
  | new_Arena storage capacity_bytes =>
      size_t_val storage /\ size_t_val capacity_bytes
  | call_request _ r => request_typed r
  | call_rewind _ m => size_t_val (offset m)
  | _ => True
  end.

(** ** Further objects and conditions *)

(** [Arena() : Arena(0) {}] *)
Definition Arena_default : Arena := Arena_ctor nullptr 0.

(** The buffer, the alignment and the size of a request together stay
    inside the address space, so that no step of [try_allocate] wraps. The
    condition does not depend on the offset. *)
Definition request_in_range (a : Arena) (size alignment : Z) : Prop :=
  data (buffer_ a) + vsize (buffer_ a) + alignment + size_or_1 size
    <= 2 ^ w.

(** The size and the alignment a request passes to [try_allocate]. *)
Definition request_size (r : request) : Z :=
  match r with
  | req_try_allocate size _ | req_allocate size _ => size
  | req_make T => sizeof T
  | req_make_array T count => size_mul (sizeof T) count
  end.

Definition request_alignment (r : request) : Z :=
  match r with
  | req_try_allocate _ alignment | req_allocate _ alignment => alignment
  | req_make T | req_make_array T _ => alignof T
  end.

Definition request_sane (a : Arena) (r : request) : Prop :=
  request_typed r /\
  request_in_range a (request_size r) (request_alignment r).

(** The statements that move an arena. *)
Definition moves_arena (o : op) : bool :=
  match o with
  | move_Arena _ | assign_Arena _ _ => true
  | _ => false
  end.

(** Every arena of [st] is in [st'] with the buffer it had. *)
Definition same_buffers (st st' : State) : Prop :=
  forall i a, arenas st !! i = Some a ->
    exists a', arenas st' !! i = Some a' /\ buffer_ a' = buffer_ a.

(** Every statement and every scope of the block is on arena [i]. *)
Fixpoint block_on (i : nat) (b : block) : Prop :=
  match b with
  | Done => True
  | Request a _ k => a = i /\ block_on i k
  | Scoped a body k => a = i /\ block_on i body /\ block_on i k
  end.

(** ** Exceptions in blocks *)




(** ** The tests of the repository (tests/test_basic.cpp)

    A test returns [true] when every [assert] holds, [false] when one
    fails, and throws what an allocation throws. The address [storage] of
    the buffer is the system allocator's choice. *)

(** [test_basic_alloc], with [U] for [std::uint64_t]. *)
Definition test_basic_alloc (storage : Z) (U : ctype) : result bool :=
  let a := Arena_ctor storage 1024 in
  match allocate a 1 1 with
  | (Throw e, _) => Throw e
  | (Return p1, a) =>
      if negb (owns a p1) then Return false
      else if negb (used a >=? 1) then Return false
      else
        match allocate a (sizeof U) (alignof U) with
        | (Throw e, _) => Throw e
        | (Return p2, a) =>
            if negb (owns a p2) then Return false
            else Return (p2 mod alignof U =? 0)
        end
  end.

(** [test_reset], with [max_align] for [alignof(std::max_align_t)], the
    default alignment of [allocate]. *)
Definition test_reset (storage max_align : Z) : result bool :=
  let a := Arena_ctor storage 256 in
  match allocate a 64 max_align with
  | (Throw e, _) => Throw e
  | (Return _, a) =>
      if negb (used a >? 0) then Return false
      else
        let a := reset a in
        Return (used a =? 0)
  end.

(** ** Sample objects *)

(** [arena::Arena a(16)] with its storage at [base] and [n] bytes used. *)
Definition arena16 (base n : Z) : Arena :=
  {| buffer_ := {| data := base; vsize := 16 |}; offset_ := n |}.

(** [std::uint64_t] *)
Definition uint64_t : ctype :=
  {| sizeof := 8; alignof := 8; trivially_default_constructible := true |}.

(** ** Arithmetic of [std::size_t] *)

Hypothesis w_pos : 0 < w.

Lemma modulus_pos : 0 < 2 ^ w.
Proof. apply Z.pow_pos_nonneg; lia. Qed.

Lemma wrap_range x : 0 <= wrap x < 2 ^ w.
Proof. unfold wrap. apply Z.mod_pos_bound, modulus_pos. Qed.

Lemma wrap_small x : size_t_val x -> wrap x = x.
Proof. intros Hx. unfold wrap. now apply Z.mod_small. Qed.

Lemma wrap_val x : size_t_val (wrap x).
Proof. apply wrap_range. Qed.

Lemma power_of_two_pos x : power_of_two x -> 0 < x.
Proof. intros (k & Hk & ->). apply Z.pow_pos_nonneg; lia. Qed.

(** The exponent of a power of two that is a [std::size_t] is below [w]. *)
Lemma power_of_two_exponent x :
  power_of_two x -> size_t_val x -> exists k, 0 <= k < w /\ x = 2 ^ k.
Proof.
  intros (k & Hk & ->) [_ Hlt]. exists k. split; [|done].
  split; [done|]. apply (Z.pow_lt_mono_r_iff 2); lia.
Qed.

(** [x != 0 && (x & (x - 1)) == 0] holds exactly of the powers of two. *)
Lemma is_power_of_two_spec x :
  size_t_val x -> is_power_of_two x = true <-> power_of_two x.
Proof.
  intros Hx. unfold is_power_of_two, size_sub. split.
  - intros [Hnz Hland]%andb_true_iff.
    apply negb_true_iff, Z.eqb_neq in Hnz. apply Z.eqb_eq in Hland.
    assert (Hx1 : 0 < x) by (unfold size_t_val in Hx; lia).
    rewrite wrap_small in Hland by (unfold size_t_val in *; lia).
    exists (Z.log2 x). split; [apply Z.log2_nonneg|].
    destruct (Z.log2_spec x Hx1) as [Hlo Hhi].
    destruct (decide (x = 2 ^ Z.log2 x)) as [|Hne]; [done|exfalso].
    assert (0 < 2 ^ Z.log2 x) by (apply Z.pow_pos_nonneg, Z.log2_nonneg; lia).
    assert (Hlog : Z.log2 (x - 1) = Z.log2 x).
    { apply Z.log2_unique; [apply Z.log2_nonneg|lia]. }
    assert (Hbit : Z.testbit (Z.land x (x - 1)) (Z.log2 x) = true).
    { rewrite Z.land_spec, Z.bit_log2 by lia.
      rewrite <- Hlog. rewrite Z.bit_log2 by lia. done. }
    rewrite Hland, Z.bits_0 in Hbit. done.
  - intros Hp. destruct (power_of_two_exponent x Hp Hx) as (k & Hk & ->).
    assert (0 < 2 ^ k) by (apply Z.pow_pos_nonneg; lia).
    apply andb_true_iff. split.
    + apply negb_true_iff, Z.eqb_neq. lia.
    + apply Z.eqb_eq. rewrite wrap_small by (unfold size_t_val in *; lia).
      replace (2 ^ k - 1) with (Z.ones k) by (rewrite Z.ones_equiv; lia).
      rewrite Z.land_ones by lia. apply Z.mod_same. lia.
Qed.

Lemma round_up_bounds value alignment :
  0 < alignment ->
  value <= round_up value alignment < value + alignment.
Proof.
  intros Hal. unfold round_up.
  pose proof (Z.mul_div_le (value + alignment - 1) alignment Hal).
  pose proof (Z.mul_succ_div_gt (value + alignment - 1) alignment Hal).
  lia.
Qed.

Lemma round_up_aligned value alignment :
  alignment <> 0 -> round_up value alignment mod alignment = 0.
Proof.
  intros Hal. unfold round_up. rewrite Z.mul_comm. now apply Z.mod_mul.
Qed.

(** Clearing the low [k] bits of a [std::size_t] with the mask
    [~(2^k - 1)]. *)
Lemma land_not_low_bits u k :
  0 <= k -> size_t_val u ->
  Z.land u (size_not (2 ^ k - 1)) = 2 ^ k * (u / 2 ^ k).
Proof.
  intros Hk Hu. unfold size_not, wrap.
  replace (2 ^ k - 1) with (Z.ones k) by (rewrite Z.ones_equiv; lia).
  rewrite <- (Z.land_ones _ w) by lia.
  rewrite (Z.land_comm (Z.lnot _)), Z.land_assoc, Z.land_ones by lia.
  rewrite Z.mod_small by done.
  rewrite <- Z.ldiff_land, Z.ldiff_ones_r by done.
  rewrite Z.shiftl_mul_pow2, Z.shiftr_div_pow2 by done. lia.
Qed.

(** [align_up] rounds up to the next multiple of a power-of-two
    alignment, modulo [2^w]. *)
Lemma align_up_spec value alignment :
  size_t_val value -> size_t_val alignment -> power_of_two alignment ->
  align_up value alignment = wrap (round_up value alignment).
Proof.
  intros Hv Hal Hp.
  destruct (power_of_two_exponent _ Hp Hal) as (k & Hk & ->).
  assert (Hk0 : 0 < 2 ^ k) by (apply Z.pow_pos_nonneg; lia).
  assert (Hwk0 : 0 < 2 ^ (w - k)) by (apply Z.pow_pos_nonneg; lia).
  assert (Hsplit : 2 ^ w = 2 ^ k * 2 ^ (w - k)).
  { rewrite <- Z.pow_add_r by lia. f_equal. lia. }
  unfold align_up, size_add, size_sub, round_up.
  rewrite (wrap_small (2 ^ k - 1)) by (unfold size_t_val in *; lia).
  rewrite land_not_low_bits by (apply wrap_range || lia).
  replace (value + 2 ^ k - 1) with (value + (2 ^ k - 1)) by lia.
  set (t := value + (2 ^ k - 1)).
  unfold wrap. rewrite Hsplit.
  rewrite Z.mul_mod_distr_l by lia. f_equal.
  rewrite Z.rem_mul_r by lia.
  rewrite (Z.mul_comm (2 ^ k)), Z.div_add by lia.
  rewrite (Z.div_small (t mod 2 ^ k)) by (apply Z.mod_pos_bound; lia).
  lia.
Qed.

(** Without wrap-around [align_up] is the rounding up itself. *)
Lemma align_up_exact value alignment :
  size_t_val value -> size_t_val alignment -> power_of_two alignment ->
  round_up value alignment < 2 ^ w ->
  align_up value alignment = round_up value alignment.
Proof.
  intros Hv Hal Hp Hlt. rewrite align_up_spec by done.
  apply wrap_small. pose proof (power_of_two_pos _ Hp).
  pose proof (round_up_bounds value alignment).
  unfold size_t_val in *. lia.
Qed.

(** ** Allocation *)

Lemma size_or_1_val size : size_t_val size -> size_t_val (size_or_1 size).
Proof.
  unfold size_or_1, size_t_val. intros Hs.
  destruct (Z.eqb_spec size 0); [|done].
  split; [lia|]. apply (Z.pow_gt_1 2); lia.
Qed.

Lemma size_or_1_pos size : size_t_val size -> 1 <= size_or_1 size.
Proof.
  unfold size_or_1, size_t_val. destruct (Z.eqb_spec size 0); lia.
Qed.

(** An alignment that is not a power of two is refused and the arena is
    left as it was. *)
Lemma try_allocate_bad_alignment a size alignment :
  size_t_val alignment -> ~ power_of_two alignment ->
  try_allocate a size alignment = (nullptr, a).
Proof.
  intros Hal Hnp. unfold try_allocate.
  destruct (is_power_of_two alignment) eqn:E; [|done].
  exfalso. now apply Hnp, is_power_of_two_spec.
Qed.

(** The steps of [try_allocate] on a request whose block, placed at the
    rounded-up address, ends inside the address space: no operation
    wraps, and the request is granted exactly when the block ends inside
    the buffer. *)
Lemma try_allocate_fits a size alignment :
  arena_ok a -> size_t_val size -> size_t_val alignment ->
  power_of_two alignment ->
  let base := data (buffer_ a) in
  let p := round_up (base + offset_ a) alignment in
  p + size_or_1 size < 2 ^ w ->
  try_allocate a size alignment =
    if p - base + size_or_1 size >? capacity a then (nullptr, a)
    else (p, {| buffer_ := buffer_ a;
                offset_ := p - base + size_or_1 size |}).
Proof.
  intros [(Hd & Hc & Hend & Hnull) [Ho1 Ho2]] Hs Hal Hp base p Hfit.
  unfold capacity in *.
  pose proof (size_or_1_pos size Hs) as Hs1.
  pose proof (power_of_two_pos _ Hp) as Hal0.
  pose proof (round_up_bounds (base + offset_ a) alignment Hal0) as Hr.
  fold p in Hr.
  assert (Hcur : size_t_val (base + offset_ a))
    by (unfold size_t_val, base; lia).
  unfold try_allocate. fold (size_or_1 size). fold base.
  rewrite (proj2 (is_power_of_two_spec alignment Hal) Hp). simpl.
  unfold size_add, size_sub.
  rewrite !(wrap_small (base + offset_ a)) by done.
  rewrite !align_up_exact by (done || fold p; lia). fold p.
  rewrite !(wrap_small (p - base)) by (unfold size_t_val, base in *; lia).
  rewrite !wrap_small by (unfold size_t_val, base in *; lia).
  done.
Qed.

(** What a granted request returns, under the conditions of
    [try_allocate_fits]: the rounded-up address, aligned and inside the
    buffer, with the padding and the size added to the offset. *)
Lemma try_allocate_granted a size alignment :
  arena_ok a -> size_t_val size -> size_t_val alignment ->
  power_of_two alignment ->
  let base := data (buffer_ a) in
  let p := round_up (base + offset_ a) alignment in
  p + size_or_1 size < 2 ^ w ->
  p - base + size_or_1 size <= capacity a ->
  let '(q, a') := try_allocate a size alignment in
  q = p /\ q <> nullptr /\ q mod alignment = 0 /\ owns a q = true /\
  capacity a' = capacity a /\
  used a' = (p - base) + size_or_1 size.
Proof.
  intros Hok Hs Hal Hp base p Hfit Hcap.
  rewrite try_allocate_fits by done. fold base p.
  destruct (Z.gtb_spec (p - base + size_or_1 size) (capacity a)); [lia|].
  destruct Hok as [(Hd & Hc & Hend & Hnull) [Ho1 Ho2]].
  pose proof (size_or_1_pos size Hs) as Hs1.
  pose proof (power_of_two_pos _ Hp) as Hal0.
  pose proof (round_up_bounds (base + offset_ a) alignment Hal0) as Hr.
  fold p in Hr. unfold capacity, used, owns, nullptr in *. fold base.
  simpl. repeat split.
  - unfold base in *. lia.
  - apply round_up_aligned. lia.
  - apply andb_true_iff. split; [apply Z.leb_le|apply Z.ltb_lt];
      unfold base in *; lia.
Qed.

(** [try_allocate] never moves the buffer and keeps the offset inside
    it. *)
Lemma try_allocate_buffer a size alignment :
  buffer_ (snd (try_allocate a size alignment)) = buffer_ a.
Proof.
  unfold try_allocate.
  destruct (negb _); [done|]. destruct (_ >? _); done.
Qed.

Lemma try_allocate_inv a size alignment :
  arena_inv a -> arena_inv (snd (try_allocate a size alignment)).
Proof.
  intros Hinv. unfold try_allocate.
  destruct (negb _); [done|].
  destruct (Z.gtb_spec
    (size_add (size_sub (align_up (size_add (data (buffer_ a)) (offset_ a))
       alignment) (data (buffer_ a))) (if size =? 0 then 1 else size))
    (vsize (buffer_ a))) as [|Hle]; [done|].
  split; simpl; [apply wrap_range|exact Hle].
Qed.

Lemma allocate_arena a size alignment :
  snd (allocate a size alignment) = snd (try_allocate a size alignment).
Proof.
  unfold allocate. destruct (try_allocate a size alignment) as [p a'].
  simpl. now destruct (p =? nullptr).
Qed.

(** [allocate] throws exactly when [try_allocate] returns a null pointer,
    and what it throws is [std::bad_alloc]. *)
Lemma allocate_throws a size alignment :
  fst (try_allocate a size alignment) = nullptr ->
  fst (allocate a size alignment) = Throw bad_alloc.
Proof.
  unfold allocate. destruct (try_allocate a size alignment) as [p a'].
  simpl. now intros ->.
Qed.

Lemma allocate_returns a size alignment :
  fst (try_allocate a size alignment) <> nullptr ->
  fst (allocate a size alignment) =
    Return (fst (try_allocate a size alignment)).
Proof.
  unfold allocate. destruct (try_allocate a size alignment) as [p a'].
  simpl. intros Hp. now destruct (Z.eqb_spec p nullptr).
Qed.

Lemma serve_buffer r a : buffer_ (serve r a) = buffer_ a.
Proof.
  destruct r as [size al|size al|T|T count]; simpl; unfold make, make_array;
    try destruct (count =? 0); try done;
    try rewrite allocate_arena; apply try_allocate_buffer.
Qed.

Lemma serve_inv r a : arena_inv a -> arena_inv (serve r a).
Proof.
  intros Hinv.
  destruct r as [size al|size al|T|T count]; simpl; unfold make, make_array;
    try destruct (count =? 0); try done;
    try rewrite allocate_arena; now apply try_allocate_inv.
Qed.

Lemma serve_all_buffer rs a : buffer_ (serve_all rs a) = buffer_ a.
Proof.
  revert a. induction rs as [|r rs IH]; intros a; [done|].
  simpl. unfold serve_all in IH. rewrite IH. apply serve_buffer.
Qed.

(** ** Checkpoints *)

Lemma rewind_buffer a m : buffer_ (rewind a m) = buffer_ a.
Proof. unfold rewind. now destruct (_ <=? _). Qed.

Lemma rewind_in_range a m :
  offset m <= capacity a ->
  rewind a m = {| buffer_ := buffer_ a; offset_ := offset m |}.
Proof.
  unfold rewind, capacity. intros H.
  now destruct (Z.leb_spec (offset m) (vsize (buffer_ a))); [|lia].
Qed.

Lemma rewind_out_of_range a m : capacity a < offset m -> rewind a m = a.
Proof.
  unfold rewind, capacity. intros H.
  now destruct (Z.leb_spec (offset m) (vsize (buffer_ a))); [lia|].
Qed.

Lemma rewind_inv a m :
  0 <= offset m -> arena_inv a -> arena_inv (rewind a m).
Proof.
  unfold rewind, arena_inv, capacity. intros Hm Hinv.
  destruct (Z.leb_spec (offset m) (vsize (buffer_ a))); simpl; lia.
Qed.

(** C5: [rewind(m)] sets the offset to the mark's value when that value
    does not exceed the capacity and is a no-op otherwise; hence rewinding
    to a mark captured by [mark()] restores [used()] to its value at the
    capture, whatever allocation requests were served in between. *)
Theorem rewind_restores_mark (a : Arena) (m : Mark) (rs : list request) :
  arena_inv a ->
  (offset m <= capacity a ->
     rewind a m = {| buffer_ := buffer_ a; offset_ := offset m |}) /\
  (capacity a < offset m -> rewind a m = a) /\
  used (rewind (serve_all rs a) (mark a)) = used a.
Proof.
  intros [_ Hle]. split; [apply rewind_in_range|].
  split; [apply rewind_out_of_range|].
  rewrite rewind_in_range; [done|].
  unfold capacity in *. now rewrite serve_all_buffer.
Qed.

(** C8: [reset()] sets [used()] to zero, and from every state of the arena
    it yields the state that [rewind] yields on a mark captured when
    [used()] was zero. *)
Theorem reset_is_rewind_to_empty (a a0 : Arena) :
  0 <= capacity a -> used a0 = 0 ->
  used (reset a) = 0 /\ rewind a (mark a0) = reset a.
Proof.
  intros Hcap H0. split; [done|].
  unfold used in H0. rewrite rewind_in_range; unfold mark; simpl;
    rewrite H0; done.
Qed.

(** C9: for every element type, [make_array<T>(0)] returns a null pointer
    without allocating: the arena, and so [used()], is unchanged. *)
Theorem make_array_zero (a : Arena) (T : ctype) :
  make_array a T 0 = (Return nullptr, a) /\
  used (snd (make_array a T 0)) = used a.
Proof. done. Qed.

(** ** The invariant [0 <= offset <= capacity] *)

Lemma Arena_ctor_inv storage capacity_bytes :
  0 <= capacity_bytes -> arena_inv (Arena_ctor storage capacity_bytes).
Proof. unfold arena_inv, capacity. simpl. lia. Qed.

Lemma reset_inv a : arena_inv a -> arena_inv (reset a).
Proof. unfold arena_inv, capacity. simpl. lia. Qed.

Lemma moved_from_inv :
  arena_inv {| buffer_ := vector_moved_from; offset_ := 0 |}.
Proof. unfold arena_inv, capacity. simpl. lia. Qed.

Lemma moved_to_inv a :
  arena_inv a ->
  arena_inv {| buffer_ := buffer_ a; offset_ := offset_ a |}.
Proof. done. Qed.

Lemma lookup_arena_inv (l : list Arena) i a :
  Forall arena_inv l -> l !! i = Some a -> arena_inv a.
Proof. intros Hl Hi. exact (proj1 (Forall_lookup _ _) Hl i a Hi). Qed.

Lemma lookup_mark_nonneg (l : list Scope) s sc :
  Forall (fun sc => 0 <= offset (m_ sc)) l -> l !! s = Some sc ->
  0 <= offset (m_ sc).
Proof.
  intros Hl Hs.
  exact (proj1 (Forall_lookup (fun sc => 0 <= offset (m_ sc)) l) Hl s sc Hs).
Qed.

Lemma Scope_dtor_inv st s : state_inv st -> state_inv (Scope_dtor st s).
Proof.
  intros [Ha Hs]. unfold Scope_dtor.
  destruct (scopes st !! s) as [sc|] eqn:Es; [|done].
  destruct (a_ sc) as [i|]; [|done].
  split; [|done]. simpl. apply Forall_alter; [done|].
  intros ar _ Har. apply rewind_inv; [|done].
  exact (lookup_mark_nonneg _ _ _ Hs Es).
Qed.

Lemma Scope_ctor_inv st a : state_inv st -> state_inv (Scope_ctor st a).
Proof.
  intros [Ha Hs]. unfold Scope_ctor.
  destruct (arenas st !! a) as [ar|] eqn:Ea; [|done].
  split; [done|]. simpl. apply Forall_app. split; [done|].
  constructor; [|constructor]. simpl.
  exact (proj1 (lookup_arena_inv _ _ _ Ha Ea)).
Qed.

Lemma Scope_move_ctor_inv st other :
  state_inv st -> state_inv (Scope_move_ctor st other).
Proof.
  intros [Ha Hs]. unfold Scope_move_ctor.
  destruct (scopes st !! other) as [o|] eqn:Eo; [|done].
  pose proof (lookup_mark_nonneg _ _ _ Hs Eo) as Hm.
  split; [done|]. simpl. apply Forall_app. split.
  - now apply Forall_insert.
  - now repeat constructor.
Qed.

Lemma Scope_move_assign_inv st this other :
  state_inv st -> state_inv (Scope_move_assign st this other).
Proof.
  intros [Ha Hs]. unfold Scope_move_assign.
  destruct (decide (this = other)); [done|].
  destruct (scopes st !! this) as [t|] eqn:Et; [|done].
  destruct (scopes st !! other) as [o|] eqn:Eo; [|done].
  pose proof (lookup_mark_nonneg _ _ _ Hs Et) as Hmt.
  pose proof (lookup_mark_nonneg _ _ _ Hs Eo) as Hmo.
  split; simpl.
  - destruct (a_ t) as [i|]; [|done].
    apply Forall_alter; [done|]. intros ar _ Har. now apply rewind_inv.
  - now repeat apply Forall_insert.
Qed.

Lemma call_request_inv st a r :
  state_inv st -> state_inv (step st (call_request a r)).
Proof.
  intros [Ha Hs]. split; [|done]. simpl. apply Forall_alter; [done|].
  intros ar _ Har. now apply serve_inv.
Qed.

(** Every statement preserves the invariant. *)
Lemma step_inv st o : op_typed o -> state_inv st -> state_inv (step st o).
Proof.
  intros Hty [Ha Hs].
  destruct o as [storage cap|other|this other|a r|a|a m|a|other
                 |this other|s]; simpl.
  - destruct Hty as [_ [Hcap _]]. split; [|done]. simpl.
    apply Forall_app. split; [done|].
    constructor; [|constructor]. now apply Arena_ctor_inv.
  - destruct (arenas st !! other) as [ar|] eqn:Eo; [|done].
    pose proof (lookup_arena_inv _ _ _ Ha Eo) as Har.
    split; [|done]. simpl. apply Forall_app. split.
    + apply Forall_insert; [done|apply moved_from_inv].
    + constructor; [|constructor]. now apply moved_to_inv.
  - destruct (decide (this = other)); [done|].
    destruct (arenas st !! this) as [t|] eqn:Et; [|done].
    destruct (arenas st !! other) as [ar|] eqn:Eo; [|done].
    pose proof (lookup_arena_inv _ _ _ Ha Eo) as Har.
    split; [|done]. simpl.
    apply Forall_insert; [|apply moved_from_inv].
    apply Forall_insert; [done|now apply moved_to_inv].
  - now apply call_request_inv.
  - split; [|done]. simpl. apply Forall_alter; [done|].
    intros ar _ Har. now apply reset_inv.
  - split; [|done]. simpl. apply Forall_alter; [done|].
    intros ar _ Har. destruct Hty as [Hm _]. now apply rewind_inv.
  - now apply Scope_ctor_inv.
  - now apply Scope_move_ctor_inv.
  - now apply Scope_move_assign_inv.
  - now apply Scope_dtor_inv.
Qed.

Lemma run_inv ops st :
  Forall op_typed ops -> state_inv st -> state_inv (run st ops).
Proof.
  revert st. induction ops as [|o ops IH]; intros st Hty Hst; [done|].
  inversion Hty as [|? ? Ho Hops]; subst. simpl.
  apply IH; [done|]. now apply step_inv.
Qed.

(** C4: [0 <= offset <= capacity] holds of every arena in every state a
    program can observe: every operation (construction, the allocating
    members, [rewind], [reset], moves of arenas, and the members of
    [Scope]) preserves it, so that it holds of every arena after any
    sequence of operations of a program that starts without objects. *)
Theorem offset_within_capacity (ops : list op) :
  Forall op_typed ops ->
  (forall st, state_inv st -> state_inv (run st ops)) /\
  (forall i a, arenas (run no_objects ops) !! i = Some a ->
     0 <= used a <= capacity a).
Proof.
  intros Hty. split; [intros st; now apply run_inv|].
  intros i a Hi.
  assert (Hinv : state_inv (run no_objects ops)).
  { apply run_inv; [done|]. split; constructor. }
  destruct Hinv as [Ha _].
  exact (lookup_arena_inv _ _ _ Ha Hi).
Qed.

(** ** Scopes *)

Lemma extends_refl st : extends st st.
Proof. split; eauto. Qed.

Lemma extends_trans st1 st2 st3 :
  extends st1 st2 -> extends st2 st3 -> extends st1 st3.
Proof.
  intros [Ha12 Hs12] [Ha23 Hs23]. split; [|eauto].
  intros i a Hi. destruct (Ha12 i a Hi) as (a2 & Hi2 & Hb2).
  destruct (Ha23 i a2 Hi2) as (a3 & Hi3 & Hb3).
  exists a3. split; [done|congruence].
Qed.

(** Altering an arena by a function that keeps its buffer. *)
Lemma extends_alter st (f : Arena -> Arena) i :
  (forall a, buffer_ (f a) = buffer_ a) ->
  extends st (with_arenas st (alter f i (arenas st))).
Proof.
  intros Hf. split; [|done]. intros j a Hj. simpl.
  rewrite list_lookup_alter. destruct (decide (i = j)) as [->|].
  - rewrite Hj. simpl. eauto.
  - eauto.
Qed.

Lemma extends_Scope_ctor st a : extends st (Scope_ctor st a).
Proof.
  unfold Scope_ctor. destruct (arenas st !! a); [|apply extends_refl].
  split; [eauto|]. intros s sc Hs. simpl.
  rewrite lookup_app_l; [done|]. now apply lookup_lt_Some in Hs.
Qed.

Lemma extends_Scope_dtor st s : extends st (Scope_dtor st s).
Proof.
  unfold Scope_dtor.
  destruct (scopes st !! s) as [sc|]; [|apply extends_refl].
  destruct (a_ sc); [|apply extends_refl].
  apply extends_alter. intros a. apply rewind_buffer.
Qed.

(** A block leaves the arenas their buffers and the scopes opened before
    it untouched: its own scopes are new objects. *)
Lemma exec_extends b st : extends st (exec b st).
Proof.
  revert st. induction b as [|a r k IHk|a body IHbody k IHk]; intros st.
  - apply extends_refl.
  - simpl. eapply extends_trans; [|apply IHk].
    apply extends_alter. intros ar. apply serve_buffer.
  - simpl. eapply extends_trans; [apply extends_Scope_ctor|].
    eapply extends_trans; [apply IHbody|].
    eapply extends_trans; [apply extends_Scope_dtor|apply IHk].
Qed.

Lemma exec_inv b st : state_inv st -> state_inv (exec b st).
Proof.
  revert st. induction b as [|a r k IHk|a body IHbody k IHk];
    intros st Hst; simpl.
  - done.
  - now apply IHk, call_request_inv.
  - now apply IHk, Scope_dtor_inv, IHbody, Scope_ctor_inv.
Qed.

(** Closing a scope restores [used()] to its value when the scope was
    opened, whatever requests and nested scopes its body has. *)
Lemma Scoped_restores st i a body :
  arenas st !! i = Some a -> arena_inv a ->
  exists a', arenas (exec (Scoped i body Done) st) !! i = Some a' /\
             used a' = used a.
Proof.
  intros Hi [_ Hle]. simpl. unfold Scope_ctor. rewrite Hi.
  set (sc := {| a_ := Some i; m_ := mark a |}).
  set (st1 := with_scopes st (scopes st ++ [sc])).
  destruct (exec_extends body st1) as [Harenas Hscopes].
  destruct (Harenas i a Hi) as (a2 & Hi2 & Hbuf).
  assert (Hsc : scopes st1 !! length (scopes st) = Some sc)
    by now apply list_lookup_middle.
  apply Hscopes in Hsc. unfold Scope_dtor. rewrite Hsc. simpl.
  rewrite list_lookup_alter, decide_True, Hi2 by done. simpl.
  eexists. split; [done|].
  rewrite rewind_in_range; [done|].
  unfold capacity in *. simpl. now rewrite Hbuf.
Qed.

Lemma Scope_dtor_inert st s sc :
  scopes st !! s = Some sc -> a_ sc = None -> Scope_dtor st s = st.
Proof. intros Hs Hnull. unfold Scope_dtor. now rewrite Hs, Hnull. Qed.

Lemma Scope_eta sc : {| a_ := a_ sc; m_ := m_ sc |} = sc.
Proof. now destruct sc. Qed.

Lemma Scope_move_ctor_spec st other o :
  scopes st !! other = Some o ->
  let st' := Scope_move_ctor st other in
  arenas st' = arenas st /\
  scopes st' !! length (scopes st) = Some o /\
  Scope_dtor st' other = st'.
Proof.
  intros Ho. pose proof (lookup_lt_Some _ _ _ Ho) as Hlt.
  unfold Scope_move_ctor. rewrite Ho. simpl. split; [done|]. split.
  - rewrite Scope_eta. apply list_lookup_middle. now rewrite length_insert.
  - apply Scope_dtor_inert with (sc := {| a_ := None; m_ := m_ o |});
      [|done]. simpl.
    rewrite lookup_app_l by now rewrite length_insert.
    now apply list_lookup_insert_eq.
Qed.

Lemma Scope_move_assign_spec st this other t o :
  this <> other ->
  scopes st !! this = Some t -> scopes st !! other = Some o ->
  let st' := Scope_move_assign st this other in
  arenas st' = arenas (Scope_dtor st this) /\
  scopes st' !! this = Some o /\
  Scope_dtor st' other = st'.
Proof.
  intros Hne Ht Ho.
  pose proof (lookup_lt_Some _ _ _ Ht) as Hlt.
  pose proof (lookup_lt_Some _ _ _ Ho) as Hlo.
  unfold Scope_move_assign. rewrite decide_False, Ht, Ho by done.
  simpl. split; [|split].
  - unfold Scope_dtor. rewrite Ht. now destruct (a_ t).
  - rewrite list_lookup_insert_ne by done.
    rewrite Scope_eta. now apply list_lookup_insert_eq.
  - apply Scope_dtor_inert with (sc := {| a_ := None; m_ := m_ o |});
      [|done]. simpl.
    apply list_lookup_insert_eq. now rewrite length_insert.
Qed.

Lemma kept_refl i s st : kept i s st st.
Proof. split; eauto. Qed.

Lemma kept_trans i s st1 st2 st3 :
  kept i s st1 st2 -> kept i s st2 st3 -> kept i s st1 st3.
Proof.
  intros [Ha12 Hs12] [Ha23 Hs23]. split; [|eauto].
  intros a Hi. destruct (Ha12 a Hi) as (a2 & Hi2 & Hb2).
  destruct (Ha23 a2 Hi2) as (a3 & Hi3 & Hb3).
  exists a3. split; [done|congruence].
Qed.

Lemma extends_kept i s st st' : extends st st' -> kept i s st st'.
Proof. intros [Ha Hs]. split; eauto. Qed.

(** A statement that moves neither the arena [i] nor the scope [s] leaves
    the arena its buffer and the scope as it is. *)
Lemma step_kept i s st o :
  keeps_arena i o -> keeps_scope s o -> kept i s st (step st o).
Proof.
  destruct o as [storage cap|other|this other|a r|a|a m|a|other
                 |this other|s']; simpl; intros Ka Ks.
  - split; [|done]. intros a Hi. exists a. split; [|done]. simpl.
    rewrite lookup_app_l; [done|]. now apply lookup_lt_Some in Hi.
  - destruct (arenas st !! other) as [ar|]; [|apply kept_refl].
    split; [|done]. intros a Hi. exists a. split; [|done]. simpl.
    rewrite lookup_app_l
      by (rewrite length_insert; now apply lookup_lt_Some in Hi).
    now rewrite list_lookup_insert_ne.
  - destruct (decide (this = other)); [apply kept_refl|].
    destruct (arenas st !! this) as [t|]; [|apply kept_refl].
    destruct (arenas st !! other) as [ar|]; [|apply kept_refl].
    destruct Ka as [Kt Ko]. split; [|done]. intros a Hi. exists a.
    split; [|done]. simpl. now rewrite !list_lookup_insert_ne.
  - apply extends_kept, extends_alter, serve_buffer.
  - now apply extends_kept, extends_alter.
  - apply extends_kept, extends_alter. intros ar. apply rewind_buffer.
  - apply extends_kept, extends_Scope_ctor.
  - unfold Scope_move_ctor.
    destruct (scopes st !! other) as [o|]; [|apply kept_refl].
    split; [eauto|]. intros sc Hs. simpl.
    rewrite lookup_app_l
      by (rewrite length_insert; now apply lookup_lt_Some in Hs).
    now rewrite list_lookup_insert_ne.
  - unfold Scope_move_assign.
    destruct (decide (this = other)); [apply kept_refl|].
    destruct (scopes st !! this) as [t|]; [|apply kept_refl].
    destruct (scopes st !! other) as [o|]; [|apply kept_refl].
    destruct Ks as [Kt Ko]. split; simpl.
    + destruct (a_ t) as [j|]; [|eauto].
      apply (proj1 (extends_alter st (fun ar => rewind ar (m_ t)) j
                      (fun ar => rewind_buffer ar (m_ t))) i).
    + intros sc Hs. now rewrite !list_lookup_insert_ne.
  - apply extends_kept, extends_Scope_dtor.
Qed.

Lemma run_kept i s ops st :
  Forall (fun o => keeps_arena i o /\ keeps_scope s o) ops ->
  kept i s st (run st ops).
Proof.
  revert st. induction ops as [|o ops IH]; intros st Hops.
  - apply kept_refl.
  - inversion Hops as [|? ? [Ka Ks] Hops']; subst. simpl.
    apply (kept_trans i s st (step st o)); [now apply step_kept|now apply IH].
Qed.

(** The destructor of a scope restores [used()] after any statements that
    moved neither the arena nor the scope. *)
Lemma Scope_dtor_restores st i a ops :
  arenas st !! i = Some a -> arena_inv a ->
  Forall (fun o => keeps_arena i o /\ keeps_scope (length (scopes st)) o)
    ops ->
  exists a',
    arenas (Scope_dtor (run (Scope_ctor st i) ops) (length (scopes st))) !! i
      = Some a' /\
    used a' = used a.
Proof.
  intros Hi [_ Hle] Hops.
  destruct (run_kept i (length (scopes st)) ops (Scope_ctor st i) Hops)
    as [Harena Hscope].
  unfold Scope_ctor in *. rewrite Hi in *.
  set (sc := {| a_ := Some i; m_ := mark a |}) in *.
  set (st1 := with_scopes st (scopes st ++ [sc])) in *.
  destruct (Harena a Hi) as (a2 & Hi2 & Hbuf).
  assert (Hsc : scopes (run st1 ops) !! length (scopes st) = Some sc)
    by now apply Hscope, list_lookup_middle.
  unfold Scope_dtor. rewrite Hsc. simpl.
  rewrite list_lookup_alter_eq, Hi2. simpl. eexists. split; [done|].
  rewrite rewind_in_range; [done|].
  unfold capacity in *. simpl. now rewrite Hbuf.
Qed.

(** C6, as the code has it: a scope rewinds its arena to the mark of its
    construction once. Closing a scope restores [used()] to its value
    when the scope was opened, whatever its body allocated and whatever
    scopes were opened and closed inside it, and more generally after any
    statements that moved neither the arena (as source or destination)
    nor the scope; the destructor of a moved-from scope changes nothing;
    move-assignment rewinds the arena of the destination to the
    destination's own mark, as the destructor of the destination would,
    and then makes the destination hold the source's arena and mark and
    the source inert. *)
Theorem scope_rewinds_once (st : State) :
  state_inv st ->
  (forall i a body, arenas st !! i = Some a ->
     let st' := exec (Scoped i body Done) st in
     state_inv st' /\
     exists a', arenas st' !! i = Some a' /\ used a' = used a) /\
  (forall i a ops, arenas st !! i = Some a ->
     let s := length (scopes st) in
     Forall (fun o => keeps_arena i o /\ keeps_scope s o) ops ->
     let st' := Scope_dtor (run (Scope_ctor st i) ops) s in
     exists a', arenas st' !! i = Some a' /\ used a' = used a) /\
  (forall s sc, scopes st !! s = Some sc -> a_ sc = None ->
     Scope_dtor st s = st) /\
  (forall other o, scopes st !! other = Some o ->
     let st' := Scope_move_ctor st other in
     arenas st' = arenas st /\
     scopes st' !! length (scopes st) = Some o /\
     Scope_dtor st' other = st') /\
  (forall this other t o, this <> other ->
     scopes st !! this = Some t -> scopes st !! other = Some o ->
     let st' := Scope_move_assign st this other in
     arenas st' = arenas (Scope_dtor st this) /\
     scopes st' !! this = Some o /\
     Scope_dtor st' other = st').
Proof.
  intros Hst. split; [|split; [|split; [|split]]].
  - intros i a body Hi st'. split; [now apply exec_inv|].
    apply Scoped_restores; [done|].
    destruct Hst as [Ha _]. exact (lookup_arena_inv _ _ _ Ha Hi).
  - intros i a ops Hi s Hops st'. apply Scope_dtor_restores; try done.
    destruct Hst as [Ha _]. exact (lookup_arena_inv _ _ _ Ha Hi).
  - apply Scope_dtor_inert.
  - apply Scope_move_ctor_spec.
  - apply Scope_move_assign_spec.
Qed.

(** ** Moving an arena *)

(** C7, as the code has it: after a move (construction or assignment from
    another object) the destination reports the [used()] and the
    [capacity()] the source had, and the source reports [used() == 0] and
    [capacity() == 0], its buffer having gone to the destination; an
    assignment of an arena to itself changes nothing. *)
Theorem arena_move_transfers (st : State) (other : nat) (src : Arena) :
  arenas st !! other = Some src ->
  (let st' := step st (move_Arena other) in
   exists dst emptied,
     arenas st' !! length (arenas st) = Some dst /\
     arenas st' !! other = Some emptied /\
     used dst = used src /\ capacity dst = capacity src /\
     used emptied = 0 /\ capacity emptied = 0) /\
  (forall this t, this <> other -> arenas st !! this = Some t ->
   let st' := step st (assign_Arena this other) in
   exists dst emptied,
     arenas st' !! this = Some dst /\
     arenas st' !! other = Some emptied /\
     used dst = used src /\ capacity dst = capacity src /\
     used emptied = 0 /\ capacity emptied = 0) /\
  step st (assign_Arena other other) = st.
Proof.
  intros Ho. pose proof (lookup_lt_Some _ _ _ Ho) as Hlo.
  split; [|split].
  - simpl. rewrite Ho. simpl. do 2 eexists. split; [|split].
    + apply list_lookup_middle. now rewrite length_insert.
    + rewrite lookup_app_l by now rewrite length_insert.
      now apply list_lookup_insert_eq.
    + done.
  - intros this t Hne Ht. pose proof (lookup_lt_Some _ _ _ Ht) as Hlt.
    simpl. rewrite decide_False, Ht, Ho by done. simpl.
    do 2 eexists. split; [|split].
    + rewrite list_lookup_insert_ne by done.
      now apply list_lookup_insert_eq.
    + apply list_lookup_insert_eq. now rewrite length_insert.
    + done.
  - simpl. now rewrite decide_True.
Qed.

(** ** Failure of [allocate] *)

(** C3, as the code has it: [allocate] throws [std::bad_alloc], and the
    arena is unchanged, both when the alignment is not a power of two and
    when the alignment is a power of two and the block, placed at the
    rounded-up address inside the address space, would end beyond the
    capacity. *)
Theorem allocate_throws_bad_alloc (a : Arena) (size alignment : Z) :
  arena_ok a -> size_t_val size -> size_t_val alignment ->
  (~ power_of_two alignment ->
     allocate a size alignment = (Throw bad_alloc, a)) /\
  (power_of_two alignment ->
   let base := data (buffer_ a) in
   let p := round_up (base + offset_ a) alignment in
   p + size_or_1 size < 2 ^ w ->
   capacity a < (p - base) + size_or_1 size ->
   allocate a size alignment = (Throw bad_alloc, a)).
Proof.
  intros Hok Hs Hal. split.
  - intros Hnp. unfold allocate.
    now rewrite try_allocate_bad_alignment.
  - intros Hp base p Hfit Hcap. unfold allocate.
    rewrite try_allocate_fits by done. fold base p.
    now destruct (Z.gtb_spec (p - base + size_or_1 size) (capacity a));
      [|lia].
Qed.

(** When the rounding up of the next free address stays inside the
    address space, a null result of [try_allocate] comes from one of its
    two refusals, and the arena is unchanged. *)
Lemma try_allocate_null_unchanged a size alignment :
  arena_ok a -> size_t_val size -> size_t_val alignment ->
  round_up (data (buffer_ a) + offset_ a) alignment < 2 ^ w ->
  fst (try_allocate a size alignment) = nullptr ->
  snd (try_allocate a size alignment) = a.
Proof.
  intros Hok Hs Hal Hround. unfold try_allocate. fold (size_or_1 size).
  destruct (is_power_of_two alignment) eqn:Epow; [|done]. simpl.
  apply is_power_of_two_spec in Epow; [|done].
  destruct (_ >? _) eqn:Egt; [done|]. simpl. intros Hnull. exfalso.
  destruct Hok as [(Hd & Hc & Hend & Hnn) [Ho1 Ho2]].
  unfold capacity in *.
  pose proof (size_or_1_pos size Hs) as Hs1.
  pose proof (size_or_1_val size Hs) as Hs2.
  pose proof (power_of_two_pos _ Epow) as Hal0.
  pose proof (round_up_bounds (data (buffer_ a) + offset_ a) alignment Hal0)
    as Hr.
  assert (Hcur : size_t_val (data (buffer_ a) + offset_ a))
    by (unfold size_t_val; lia).
  unfold size_add, size_sub in *.
  rewrite !(wrap_small (data (buffer_ a) + offset_ a)) in * by done.
  rewrite !align_up_exact in * by done.
  unfold nullptr in Hnull.
  assert (Hbase : data (buffer_ a) = 0) by lia.
  assert (Hcap : vsize (buffer_ a) = 0) by lia.
  rewrite Hnull, Hbase, Hcap in Egt. change (0 - 0) with 0 in Egt.
  rewrite (wrap_small 0) in Egt by (unfold size_t_val; lia).
  rewrite Z.add_0_l, wrap_small, Z.gtb_ltb in Egt by done.
  apply Z.ltb_ge in Egt. lia.
Qed.

(** In particular a failed attempt leaves the arena unchanged whenever the
    buffer lies in the lower half of the address space. *)
Lemma try_allocate_null_unchanged_low a size alignment :
  arena_ok a -> size_t_val size -> size_t_val alignment ->
  data (buffer_ a) + vsize (buffer_ a) <= 2 ^ (w - 1) ->
  fst (try_allocate a size alignment) = nullptr ->
  snd (try_allocate a size alignment) = a.
Proof.
  intros Hok Hs Hal Hlow.
  destruct (is_power_of_two alignment) eqn:Epow.
  - apply try_allocate_null_unchanged; try done.
    apply is_power_of_two_spec in Epow; [|done].
    destruct (power_of_two_exponent _ Epow Hal) as (k & Hk & ->).
    assert (Hhalf : 2 ^ w = 2 * 2 ^ (w - 1)).
    { rewrite <- Z.pow_succ_r by lia. f_equal. lia. }
    assert (Hk1 : 2 ^ k <= 2 ^ (w - 1)) by (apply Z.pow_le_mono_r; lia).
    assert (Hk0 : 0 < 2 ^ k) by (apply Z.pow_pos_nonneg; lia).
    pose proof (round_up_bounds (data (buffer_ a) + offset_ a) (2 ^ k) Hk0).
    destruct Hok as [_ [_ Ho]]. unfold capacity in Ho. lia.
  - intros _. unfold try_allocate. now rewrite Epow.
Qed.

(** * Further properties of the code *)

(** ** [is_power_of_two] and [align_up] *)

(** [is_power_of_two] accepts exactly the powers of two [2^k] with
    [k < w]; in particular it rejects 0, where [x - 1] wraps. *)
Theorem is_power_of_two_correct (x : Z) :
  size_t_val x ->
  (is_power_of_two x = true <-> exists k, 0 <= k < w /\ x = 2 ^ k) /\
  is_power_of_two 0 = false.
Proof.
  intros Hx. split; [|done]. rewrite is_power_of_two_spec by done. split.
  - intros Hp. now apply power_of_two_exponent.
  - intros (k & Hk & ->). exists k. split; [lia|done].
Qed.

(** When [value + alignment] does not exceed [2^w], [align_up] returns the
    least multiple of the alignment that is not below the value. *)
Theorem align_up_least (value alignment : Z) :
  size_t_val value -> size_t_val alignment -> power_of_two alignment ->
  value + alignment <= 2 ^ w ->
  let r := align_up value alignment in
  r mod alignment = 0 /\ value <= r < value + alignment /\
  forall m, m mod alignment = 0 -> value <= m -> r <= m.
Proof.
  intros Hv Hal Hp Hsum r.
  pose proof (power_of_two_pos _ Hp) as Hal0.
  pose proof (round_up_bounds value alignment Hal0) as Hr.
  assert (Er : r = round_up value alignment).
  { apply align_up_exact; try done. lia. }
  rewrite Er. split; [apply round_up_aligned; lia|]. split; [done|].
  intros m Hm Hle.
  pose proof (round_up_aligned value alignment ltac:(lia)) as Hra.
  apply Z.div_exact in Hm; [|lia]. apply Z.div_exact in Hra; [|lia].
  destruct (Z.le_gt_cases (round_up value alignment) m) as [|Hgt]; [done|].
  exfalso.
  assert (m / alignment < round_up value alignment / alignment) by nia.
  nia.
Qed.

(** When [value + alignment] exceeds [2^w], the rounding up reaches [2^w]
    and [align_up] returns 0. *)
Theorem align_up_wraps (value alignment : Z) :
  size_t_val value -> size_t_val alignment -> power_of_two alignment ->
  2 ^ w < value + alignment ->
  align_up value alignment = 0.
Proof.
  intros Hv Hal Hp Hsum. rewrite align_up_spec by done.
  destruct (power_of_two_exponent _ Hp Hal) as (k & Hk & ->).
  assert (Hk0 : 0 < 2 ^ k) by (apply Z.pow_pos_nonneg; lia).
  assert (Hsplit : 2 ^ w = 2 ^ k * 2 ^ (w - k)).
  { rewrite <- Z.pow_add_r by lia. f_equal. lia. }
  assert (Hq : (value + 2 ^ k - 1) / 2 ^ k = 2 ^ (w - k)).
  { symmetry. apply (Z.div_unique_pos _ _ _ (value + 2 ^ k - 1 - 2 ^ w));
      unfold size_t_val in *; lia. }
  unfold round_up, wrap. rewrite Hq, <- Hsplit. apply Z.mod_same.
  pose proof modulus_pos. lia.
Qed.

Lemma align_up_fixes value alignment :
  size_t_val value -> size_t_val alignment -> power_of_two alignment ->
  value mod alignment = 0 -> align_up value alignment = value.
Proof.
  intros Hv Hal Hp Hm. pose proof (power_of_two_pos _ Hp) as Hal0.
  apply Z.div_exact in Hm; [|lia].
  assert (Hq : (value + alignment - 1) / alignment = value / alignment).
  { symmetry. apply (Z.div_unique_pos _ _ _ (alignment - 1)); lia. }
  assert (Hr : round_up value alignment = value) by (unfold round_up; lia).
  rewrite align_up_exact; try done. unfold size_t_val in *. lia.
Qed.

Lemma align_up_multiple value alignment :
  size_t_val value -> size_t_val alignment -> power_of_two alignment ->
  align_up value alignment mod alignment = 0.
Proof.
  intros Hv Hal Hp. rewrite align_up_spec by done. unfold wrap.
  destruct (power_of_two_exponent _ Hp Hal) as (k & Hk & ->).
  assert (Hk0 : 0 < 2 ^ k) by (apply Z.pow_pos_nonneg; lia).
  rewrite Z.mod_mod_divide; [apply round_up_aligned; lia|].
  exists (2 ^ (w - k)). rewrite <- Z.pow_add_r by lia. f_equal. lia.
Qed.

(** [align_up] always returns a multiple of the alignment, leaves a
    multiple of the alignment where it is, and so is idempotent. *)
Theorem align_up_idempotent (value alignment : Z) :
  size_t_val value -> size_t_val alignment -> power_of_two alignment ->
  align_up value alignment mod alignment = 0 /\
  (value mod alignment = 0 -> align_up value alignment = value) /\
  align_up (align_up value alignment) alignment = align_up value alignment.
Proof.
  intros Hv Hal Hp.
  split; [now apply align_up_multiple|]. split; [now apply align_up_fixes|].
  apply align_up_fixes; try done; [|now apply align_up_multiple].
  rewrite align_up_spec by done. apply wrap_range.
Qed.

(** ** Queries *)

(** A newly constructed arena is empty, with the capacity asked for. *)
Theorem Arena_ctor_fresh (storage capacity_bytes : Z) :
  size_t_val capacity_bytes ->
  let a := Arena_ctor storage capacity_bytes in
  used a = 0 /\ capacity a = capacity_bytes /\
  remaining a = capacity_bytes /\ empty a = true /\ arena_inv a.
Proof.
  intros Hc a. unfold remaining, size_sub, arena_inv, capacity, used. simpl.
  rewrite Z.sub_0_r, wrap_small by done. unfold size_t_val in Hc.
  repeat split; lia.
Qed.

(** Under the invariant the subtraction of [remaining()] does not wrap:
    [used() + remaining() == capacity()], and the arena is [empty()]
    exactly when all of its capacity remains. *)
Theorem remaining_complements_used (a : Arena) :
  arena_inv a -> capacity a < 2 ^ w ->
  used a + remaining a = capacity a /\
  0 <= remaining a <= capacity a /\
  (empty a = true <-> remaining a = capacity a).
Proof.
  intros [Ho1 Ho2] Hc. unfold remaining, size_sub, empty, used in *.
  rewrite wrap_small by (unfold size_t_val; lia).
  split; [lia|]. split; [lia|]. rewrite Z.eqb_eq. lia.
Qed.

(** ** Allocation when nothing wraps *)

Lemma request_in_range_fits a size alignment :
  arena_ok a -> size_t_val size -> power_of_two alignment ->
  request_in_range a size alignment ->
  round_up (data (buffer_ a) + offset_ a) alignment + size_or_1 size
    < 2 ^ w.
Proof.
  intros [_ [Ho1 Ho2]] Hs Hp Hr. unfold request_in_range, capacity in *.
  pose proof (power_of_two_pos _ Hp) as Hal0.
  pose proof (round_up_bounds (data (buffer_ a) + offset_ a) alignment Hal0).
  lia.
Qed.

(** What is known of a pointer that an in-range request got. *)
Lemma try_allocate_in_range a size alignment p a' :
  arena_ok a -> size_t_val size -> size_t_val alignment ->
  request_in_range a size alignment ->
  try_allocate a size alignment = (p, a') -> p <> nullptr ->
  power_of_two alignment /\
  p = round_up (data (buffer_ a) + offset_ a) alignment /\
  a' = {| buffer_ := buffer_ a;
          offset_ := p - data (buffer_ a) + size_or_1 size |} /\
  p - data (buffer_ a) + size_or_1 size <= capacity a.
Proof.
  intros Hok Hs Hal Hr Htry Hp.
  destruct (is_power_of_two alignment) eqn:Epow.
  - apply is_power_of_two_spec in Epow; [|done].
    rewrite try_allocate_fits in Htry
      by (done || now apply request_in_range_fits).
    destruct (Z.gtb_spec
      (round_up (data (buffer_ a) + offset_ a) alignment - data (buffer_ a)
         + size_or_1 size) (capacity a)) as [|Hle];
      inversion Htry; subst; done.
  - unfold try_allocate in Htry. rewrite Epow in Htry.
    inversion Htry; subst; done.
Qed.

Lemma arena_ok_advance a n :
  arena_ok a -> 0 <= n <= capacity a ->
  arena_ok {| buffer_ := buffer_ a; offset_ := n |}.
Proof. intros [Hv _] Hn. split; [done|]. unfold arena_inv, capacity. done. Qed.

(** A granted in-range request advances the offset by the size of the
    block plus a padding smaller than the alignment, and changes nothing
    else. *)
Theorem try_allocate_advances (a : Arena) (size alignment p : Z) (a' : Arena) :
  arena_ok a -> size_t_val size -> size_t_val alignment ->
  request_in_range a size alignment ->
  try_allocate a size alignment = (p, a') -> p <> nullptr ->
  used a + size_or_1 size <= used a' < used a + size_or_1 size + alignment /\
  buffer_ a' = buffer_ a /\ arena_ok a'.
Proof.
  intros Hok Hs Hal Hr Htry Hp.
  destruct (try_allocate_in_range _ _ _ _ _ Hok Hs Hal Hr Htry Hp)
    as (Hpow & Ep & -> & Hle).
  pose proof (power_of_two_pos _ Hpow) as Hal0.
  pose proof (round_up_bounds (data (buffer_ a) + offset_ a) alignment Hal0).
  pose proof (size_or_1_pos size Hs).
  destruct Hok as [Hv [Ho1 Ho2]]. unfold used, capacity in *. simpl.
  split; [lia|]. split; [done|]. split; [done|].
  unfold arena_inv, capacity. simpl. lia.
Qed.

(** The block of a granted in-range request lies inside the buffer, from
    its aligned first byte to its last, and ends at the new offset. *)
Theorem try_allocate_block_in_buffer
    (a : Arena) (size alignment p : Z) (a' : Arena) :
  arena_ok a -> size_t_val size -> size_t_val alignment ->
  request_in_range a size alignment ->
  try_allocate a size alignment = (p, a') -> p <> nullptr ->
  p mod alignment = 0 /\
  data (buffer_ a) + used a <= p /\
  p + size_or_1 size = data (buffer_ a) + used a' /\
  p + size_or_1 size <= data (buffer_ a) + capacity a /\
  owns a p = true /\ owns a (p + size_or_1 size - 1) = true.
Proof.
  intros Hok Hs Hal Hr Htry Hp.
  destruct (try_allocate_in_range _ _ _ _ _ Hok Hs Hal Hr Htry Hp)
    as (Hpow & Ep & -> & Hle).
  pose proof (power_of_two_pos _ Hpow) as Hal0.
  pose proof (round_up_bounds (data (buffer_ a) + offset_ a) alignment Hal0).
  pose proof (size_or_1_pos size Hs).
  destruct Hok as [Hv [Ho1 Ho2]]. unfold used, capacity, owns in *. simpl.
  split; [rewrite Ep; apply round_up_aligned; lia|].
  repeat split; try lia;
    apply andb_true_iff; split; (apply Z.leb_le || apply Z.ltb_lt); lia.
Qed.

(** With alignment 1 there is never any padding: the block starts at the
    next free byte, and the request is refused exactly when fewer than
    [max(size, 1)] bytes remain. *)
Theorem try_allocate_unaligned (a : Arena) (size : Z) :
  arena_ok a -> size_t_val size -> request_in_range a size 1 ->
  try_allocate a size 1 =
    if used a + size_or_1 size >? capacity a then (nullptr, a)
    else (data (buffer_ a) + used a,
          {| buffer_ := buffer_ a; offset_ := used a + size_or_1 size |}).
Proof.
  intros Hok Hs Hr.
  assert (H1 : size_t_val 1).
  { split; [lia|]. apply (Z.pow_gt_1 2); lia. }
  assert (Hp1 : power_of_two 1) by (exists 0; split; [lia|done]).
  rewrite try_allocate_fits by (done || now apply request_in_range_fits).
  unfold round_up, used. rewrite Z.mul_1_l, Z.div_1_r.
  replace (data (buffer_ a) + offset_ a + 1 - 1 - data (buffer_ a)
             + size_or_1 size) with (offset_ a + size_or_1 size) by lia.
  replace (data (buffer_ a) + offset_ a + 1 - 1)
    with (data (buffer_ a) + offset_ a) by lia.
  done.
Qed.

(** A full arena refuses every in-range request. *)
Theorem full_arena_refuses (a : Arena) (size alignment : Z) :
  arena_ok a -> used a = capacity a ->
  size_t_val size -> size_t_val alignment ->
  request_in_range a size alignment ->
  try_allocate a size alignment = (nullptr, a) /\
  allocate a size alignment = (Throw bad_alloc, a).
Proof.
  intros Hok Hfull Hs Hal Hr.
  assert (Htry : try_allocate a size alignment = (nullptr, a)).
  { destruct (is_power_of_two alignment) eqn:Epow.
    - apply is_power_of_two_spec in Epow; [|done].
      rewrite try_allocate_fits by (done || now apply request_in_range_fits).
      pose proof (power_of_two_pos _ Epow) as Hal0.
      pose proof (round_up_bounds (data (buffer_ a) + offset_ a) alignment
                    Hal0).
      pose proof (size_or_1_pos size Hs). unfold used in Hfull.
      now destruct (Z.gtb_spec
        (round_up (data (buffer_ a) + offset_ a) alignment
           - data (buffer_ a) + size_or_1 size) (capacity a)); [|lia].
    - unfold try_allocate. now rewrite Epow. }
  split; [done|]. unfold allocate. now rewrite Htry.
Qed.

(** Whatever the arena, the size and the alignment, and whether or not
    the arithmetic wraps, the pointer [try_allocate] returns is a multiple
    of the alignment, and it is null unless the alignment is a power of
    two. *)
Theorem try_allocate_result_aligned (a : Arena) (size alignment : Z) :
  size_t_val alignment ->
  let p := fst (try_allocate a size alignment) in
  p mod alignment = 0 /\ (p <> nullptr -> power_of_two alignment).
Proof.
  intros Hal. unfold try_allocate.
  destruct (is_power_of_two alignment) eqn:Epow; simpl.
  - apply is_power_of_two_spec in Epow; [|done].
    destruct (_ >? _); simpl.
    + split; [apply Z.mod_0_l|done].
      pose proof (power_of_two_pos _ Epow). lia.
    + split; [|done]. apply align_up_multiple; try done. apply wrap_range.
  - split; [|done]. unfold nullptr. now destruct alignment.
Qed.

(** An arena without a buffer, as [Arena()] and [Arena(0)] construct it
    and as a move leaves its source, refuses every request and owns no
    address. *)
Theorem empty_buffer_refuses (storage size alignment : Z) (other : Arena) :
  size_t_val size -> size_t_val alignment ->
  Arena_ctor storage 0 = Arena_default /\
  snd (Arena_move_ctor other) = Arena_default /\
  try_allocate Arena_default size alignment = (nullptr, Arena_default) /\
  allocate Arena_default size alignment = (Throw bad_alloc, Arena_default) /\
  forall p, owns Arena_default p = false.
Proof.
  intros Hs Hal. split; [done|]. split; [done|].
  assert (Htry : try_allocate Arena_default size alignment
                 = (nullptr, Arena_default)).
  { unfold try_allocate. fold (size_or_1 size).
    destruct (is_power_of_two alignment) eqn:Epow; [|done]. simpl.
    apply is_power_of_two_spec in Epow; [|done].
    assert (H0 : size_t_val 0) by (pose proof modulus_pos; split; lia).
    unfold size_add at 2. unfold nullptr. rewrite Z.add_0_l.
    rewrite (wrap_small 0), (align_up_fixes 0) by (done || apply Z.mod_0_l;
      pose proof (power_of_two_pos _ Epow); lia).
    unfold size_sub, size_add. rewrite Z.sub_0_r, (wrap_small 0) by done.
    rewrite Z.add_0_l, wrap_small by now apply size_or_1_val.
    pose proof (size_or_1_pos size Hs).
    now destruct (Z.gtb_spec (size_or_1 size) 0); [|lia]. }
  split; [done|]. split; [unfold allocate; now rewrite Htry|].
  intros p. unfold owns. simpl. unfold nullptr.
  destruct (Z.leb_spec 0 p), (Z.ltb_spec p (0 + 0)); simpl; try done. lia.
Qed.

(** ** Sequences of requests *)

Lemma try_allocate_in_range_step a size alignment :
  arena_ok a -> size_t_val size -> size_t_val alignment ->
  request_in_range a size alignment ->
  let a' := snd (try_allocate a size alignment) in
  arena_ok a' /\ used a <= used a' /\ buffer_ a' = buffer_ a.
Proof.
  intros Hok Hs Hal Hr.
  destruct (try_allocate a size alignment) as [p a'] eqn:Htry. simpl.
  destruct (Z.eq_dec p nullptr) as [->|Hp].
  - assert (Ea : a' = a).
    { change a' with (snd (nullptr, a')). rewrite <- Htry.
      destruct (is_power_of_two alignment) eqn:Epow.
      - apply try_allocate_null_unchanged; try done; [|now rewrite Htry].
        apply is_power_of_two_spec in Epow; [|done].
        pose proof (request_in_range_fits _ _ _ Hok Hs Epow Hr).
        pose proof (size_or_1_pos size Hs). lia.
      - unfold try_allocate. now rewrite Epow. }
    subst a'. split; [done|]. split; [lia|done].
  - destruct (try_allocate_in_range _ _ _ _ _ Hok Hs Hal Hr Htry Hp)
      as (Hpow & Ep & -> & Hle).
    pose proof (power_of_two_pos _ Hpow) as Hal0.
    pose proof (round_up_bounds (data (buffer_ a) + offset_ a) alignment
                  Hal0).
    pose proof (size_or_1_pos size Hs).
    pose proof Hok as [_ [Ho1 Ho2]].
    split; [apply arena_ok_advance; [done|lia]|].
    unfold used. simpl. split; [lia|done].
Qed.

Lemma serve_in_range_step r a :
  arena_ok a -> request_sane a r ->
  arena_ok (serve r a) /\ used a <= used (serve r a).
Proof.
  intros Hok [Hty Hr].
  destruct r as [size al|size al|T|T count]; simpl in *;
    unfold make, make_array; try rewrite allocate_arena.
  - destruct Hty as [Hs Hal].
    now destruct (try_allocate_in_range_step a size al Hok Hs Hal Hr)
      as (? & ? & _).
  - destruct Hty as [Hs Hal].
    now destruct (try_allocate_in_range_step a size al Hok Hs Hal Hr)
      as (? & ? & _).
  - destruct Hty as [Hs Hal].
    now destruct (try_allocate_in_range_step a _ _ Hok Hs Hal Hr)
      as (? & ? & _).
  - destruct (count =? 0); [split; [done|simpl; lia]|].
    rewrite allocate_arena.
    destruct Hty as [[_ Hal] _].
    now destruct (try_allocate_in_range_step a _ _ Hok
                    (wrap_range (sizeof T * count)) Hal Hr) as (? & ? & _).
Qed.

Lemma request_sane_buffer a a' r :
  buffer_ a' = buffer_ a -> request_sane a r -> request_sane a' r.
Proof.
  intros Hbuf [Hty Hr]. split; [done|].
  unfold request_in_range in *. now rewrite Hbuf.
Qed.

Lemma serve_all_in_range rs a :
  arena_ok a -> Forall (request_sane a) rs ->
  arena_ok (serve_all rs a) /\ used a <= used (serve_all rs a).
Proof.
  revert a. induction rs as [|r rs IH]; intros a Hok Hrs.
  - split; [done|]. simpl. lia.
  - inversion Hrs as [|? ? Hr Hrs']; subst. simpl.
    destruct (serve_in_range_step r a Hok Hr) as [Hok1 Hle1].
    destruct (IH (serve r a) Hok1) as [Hok2 Hle2].
    { eapply Forall_impl; [exact Hrs'|]. intros r'.
      apply request_sane_buffer, serve_buffer. }
    split; [done|]. unfold serve_all in *. lia.
Qed.

(** [used()] never decreases along a sequence of in-range requests, granted
    or refused. *)
Theorem used_monotone (a : Arena) (rs : list request) :
  arena_ok a -> Forall (request_sane a) rs ->
  used a <= used (serve_all rs a) <= capacity a.
Proof.
  intros Hok Hrs.
  destruct (serve_all_in_range rs a Hok Hrs) as [[_ [_ Hcap]] Hle].
  unfold capacity in *. rewrite serve_all_buffer in Hcap.
  unfold used in *. lia.
Qed.

(** Two blocks granted by in-range requests, with any in-range requests
    served in between, do not overlap: the later block starts at or after
    the end of the earlier one, even when the sizes asked for are 0. *)
Theorem granted_blocks_disjoint
    (a : Arena) (size1 alignment1 p1 : Z) (a1 : Arena) (rs : list request)
    (size2 alignment2 p2 : Z) (a2 : Arena) :
  arena_ok a ->
  size_t_val size1 -> size_t_val alignment1 ->
  request_in_range a size1 alignment1 ->
  try_allocate a size1 alignment1 = (p1, a1) -> p1 <> nullptr ->
  Forall (request_sane a) rs ->
  size_t_val size2 -> size_t_val alignment2 ->
  request_in_range a size2 alignment2 ->
  try_allocate (serve_all rs a1) size2 alignment2 = (p2, a2) ->
  p2 <> nullptr ->
  p1 + size_or_1 size1 <= p2 /\ p1 < p2.
Proof.
  intros Hok Hs1 Hal1 Hr1 Htry1 Hp1 Hrs Hs2 Hal2 Hr2 Htry2 Hp2.
  destruct (try_allocate_in_range _ _ _ _ _ Hok Hs1 Hal1 Hr1 Htry1 Hp1)
    as (Hpow1 & Ep1 & Ea1 & Hle1).
  pose proof (power_of_two_pos _ Hpow1) as Hal10.
  pose proof (round_up_bounds (data (buffer_ a) + offset_ a) alignment1
                Hal10) as Hb1.
  rewrite <- Ep1 in Hb1.
  pose proof (size_or_1_pos size1 Hs1) as Hpos1.
  assert (Hbuf1 : buffer_ a1 = buffer_ a) by now subst a1.
  assert (Hend1 : p1 + size_or_1 size1 = data (buffer_ a) + used a1)
    by (subst a1; unfold used; simpl; lia).
  assert (Hok1 : arena_ok a1).
  { subst a1. apply arena_ok_advance; [done|].
    destruct Hok as [_ [Ho1 Ho2]]. lia. }
  assert (Hrs1 : Forall (request_sane a1) rs).
  { eapply Forall_impl; [exact Hrs|]. intros r.
    now apply request_sane_buffer. }
  destruct (serve_all_in_range rs a1 Hok1 Hrs1) as [Hok' Hle].
  assert (Hbuf' : buffer_ (serve_all rs a1) = buffer_ a)
    by now rewrite serve_all_buffer.
  assert (Hr2' : request_in_range (serve_all rs a1) size2 alignment2)
    by (unfold request_in_range in *; now rewrite Hbuf').
  destruct (try_allocate_in_range _ _ _ _ _ Hok' Hs2 Hal2 Hr2' Htry2 Hp2)
    as (Hpow2 & Ep2 & _ & _).
  pose proof (power_of_two_pos _ Hpow2) as Hal20.
  pose proof (round_up_bounds
                (data (buffer_ (serve_all rs a1)) + offset_ (serve_all rs a1))
                alignment2 Hal20) as Hb2.
  rewrite <- Ep2, Hbuf' in Hb2. unfold used in *. lia.
Qed.

(** ** Checkpoints *)

(** Of two rewinds the last in-range one decides the offset; a rewind
    repeated changes nothing more, and [reset] forgets every rewind. *)
Theorem rewind_rewind (a : Arena) (m1 m2 : Mark) :
  rewind (rewind a m1) m2
    = (if offset m2 <=? capacity a then rewind a m2 else rewind a m1) /\
  rewind (rewind a m1) m1 = rewind a m1 /\
  reset (rewind a m1) = reset a.
Proof.
  unfold rewind, reset, capacity.
  destruct (Z.leb_spec (offset m1) (vsize (buffer_ a)));
    destruct (Z.leb_spec (offset m2) (vsize (buffer_ a))); simpl;
    repeat match goal with
           | |- context [?x <=? ?y] => destruct (Z.leb_spec x y); try lia
           end; done.
Qed.

(** Rewinding to a mark brings back the whole state of the arena at the
    capture, so that the requests served next get the addresses they
    would have got then: the memory is handed out again. *)
Theorem rewind_replays (a : Arena) (rs : list request) (size alignment : Z) :
  arena_inv a ->
  rewind (serve_all rs a) (mark a) = a /\
  try_allocate (rewind (serve_all rs a) (mark a)) size alignment
    = try_allocate a size alignment.
Proof.
  intros [_ Hle].
  assert (Ea : rewind (serve_all rs a) (mark a) = a).
  { rewrite rewind_in_range.
    - rewrite serve_all_buffer. now destruct a.
    - unfold capacity in *. now rewrite serve_all_buffer. }
  now rewrite Ea.
Qed.

(** ** Arrays *)


(** ** Programs *)

Lemma same_buffers_refl st : same_buffers st st.
Proof. intros i a Hi. eauto. Qed.

Lemma same_buffers_trans st1 st2 st3 :
  same_buffers st1 st2 -> same_buffers st2 st3 -> same_buffers st1 st3.
Proof.
  intros H12 H23 i a Hi. destruct (H12 i a Hi) as (a2 & Hi2 & Hb2).
  destruct (H23 i a2 Hi2) as (a3 & Hi3 & Hb3).
  exists a3. split; [done|congruence].
Qed.

Lemma same_buffers_arenas st st' :
  arenas st' = arenas st -> same_buffers st st'.
Proof. intros E i a Hi. rewrite E. eauto. Qed.

Lemma extends_same_buffers st st' : extends st st' -> same_buffers st st'.
Proof. now intros [H _]. Qed.

Lemma step_same_buffers st o :
  moves_arena o = false -> same_buffers st (step st o).
Proof.
  destruct o as [storage cap|other|this other|a r|a|a m|a|other
                 |this other|s]; simpl; try done; intros _.
  - intros i a Hi. simpl. exists a. split; [|done].
    rewrite lookup_app_l; [done|]. now apply lookup_lt_Some in Hi.
  - apply extends_same_buffers, extends_alter, serve_buffer.
  - now apply extends_same_buffers, extends_alter.
  - apply extends_same_buffers, extends_alter. intros ar.
    apply rewind_buffer.
  - apply extends_same_buffers, extends_Scope_ctor.
  - unfold Scope_move_ctor. destruct (scopes st !! other);
      now apply same_buffers_arenas.
  - unfold Scope_move_assign. destruct (decide (this = other));
      [apply same_buffers_refl|].
    destruct (scopes st !! this) as [t|]; [|apply same_buffers_refl].
    destruct (scopes st !! other) as [o|]; [|apply same_buffers_refl].
    destruct (a_ t) as [i|]; [|now apply same_buffers_arenas].
    apply (same_buffers_trans st
             (with_arenas st (alter (fun ar => rewind ar (m_ t)) i
                                (arenas st))));
      [|now apply same_buffers_arenas].
    apply extends_same_buffers, extends_alter. intros ar.
    apply rewind_buffer.
  - apply extends_same_buffers, extends_Scope_dtor.
Qed.

(** No statement other than a move of an arena changes the buffer of an
    arena: its capacity is fixed, and the arena owns the same addresses,
    among them every pointer it ever returned, whatever is allocated,
    rewound or reset afterwards. *)
Theorem buffers_stable (st : State) (ops : list op) (i : nat) (a : Arena) :
  Forall (fun o => moves_arena o = false) ops ->
  arenas st !! i = Some a ->
  exists a', arenas (run st ops) !! i = Some a' /\
    capacity a' = capacity a /\ forall p, owns a' p = owns a p.
Proof.
  intros Hops Hi.
  assert (Hsame : same_buffers st (run st ops)).
  { clear Hi. revert st. induction ops as [|o ops IH]; intros st.
    - apply same_buffers_refl.
    - inversion Hops as [|? ? Ho Hops']; subst. simpl.
      apply (same_buffers_trans st (step st o));
        [now apply step_same_buffers|now apply IH]. }
  destruct (Hsame i a Hi) as (a' & Hi' & Hbuf). exists a'.
  split; [done|]. unfold capacity, owns. now rewrite Hbuf.
Qed.

(** A block whose requests and scopes are all on one arena leaves every
    other arena as it was. *)
Theorem exec_frame (b : block) (st : State) (i j : nat) :
  is_Some (arenas st !! i) -> block_on i b -> j <> i ->
  arenas (exec b st) !! j = arenas st !! j.
Proof.
  revert st. induction b as [|a r k IHk|a body IHbody k IHk];
    intros st Hi Hon Hne; simpl in *.
  - done.
  - destruct Hon as [-> Hk]. rewrite IHk; try done.
    + simpl. now rewrite list_lookup_alter_ne.
    + simpl. rewrite list_lookup_alter_eq. destruct Hi as [x ->]. now eexists.
  - destruct Hon as (-> & Hbody & Hk). destruct Hi as [ar Har].
    unfold Scope_ctor. rewrite Har.
    set (sc := {| a_ := Some i; m_ := mark ar |}).
    set (st1 := with_scopes st (scopes st ++ [sc])).
    assert (Hsc : scopes (exec body st1) !! length (scopes st) = Some sc).
    { apply (proj2 (exec_extends body st1)). now apply list_lookup_middle. }
    destruct (proj1 (exec_extends body st1) i ar Har) as (ar2 & Har2 & _).
    unfold Scope_dtor. rewrite Hsc. simpl. rewrite IHk; try done.
    + simpl. rewrite list_lookup_alter_ne by done.
      now rewrite IHbody by (done || now exists ar).
    + simpl. rewrite list_lookup_alter_eq, Har2. now eexists.
Qed.

(** ** Scopes *)

Lemma rewind_idempotent a m : rewind (rewind a m) m = rewind a m.
Proof.
  unfold rewind. destruct (Z.leb_spec (offset m) (vsize (buffer_ a))) as [H|H];
    simpl; now destruct (Z.leb_spec (offset m) (vsize (buffer_ a))); try lia.
Qed.

(** Running the destructor of a scope a second time changes nothing. *)
Theorem Scope_dtor_twice (st : State) (s : nat) :
  Scope_dtor (Scope_dtor st s) s = Scope_dtor st s.
Proof.
  unfold Scope_dtor. destruct (scopes st !! s) as [sc|] eqn:Es; [|now rewrite Es].
  destruct (a_ sc) as [i|] eqn:Ea; simpl; rewrite Es, Ea; [|done].
  unfold with_arenas. simpl. f_equal. rewrite list_alter_alter_eq.
  apply list_alter_ext; [|done]. intros ar _. apply rewind_idempotent.
Qed.


(** ** Scopes and exceptions *)



(** ** The tests *)

(** [allocate] on a request that fits. *)
Lemma allocate_granted a size alignment :
  arena_ok a -> size_t_val size -> size_t_val alignment ->
  power_of_two alignment ->
  let base := data (buffer_ a) in
  let p := round_up (base + offset_ a) alignment in
  p + size_or_1 size < 2 ^ w ->
  p - base + size_or_1 size <= capacity a ->
  allocate a size alignment =
    (Return p, {| buffer_ := buffer_ a;
                  offset_ := p - base + size_or_1 size |}).
Proof.
  intros Hok Hs Hal Hp base p Hfit Hle. unfold allocate.
  rewrite try_allocate_fits by done. fold base p.
  destruct (Z.gtb_spec (p - base + size_or_1 size) (capacity a)); [lia|].
  pose proof (power_of_two_pos _ Hp) as Hal0.
  pose proof (round_up_bounds (base + offset_ a) alignment Hal0) as Hb.
  fold p in Hb. pose proof (size_or_1_pos size Hs).
  destruct Hok as [(Hd & Hcap & _ & Hnn) [Ho1 Ho2]].
  unfold capacity in *. fold base in Hd, Hnn.
  destruct (Z.eqb_spec p nullptr) as [E|]; [|done].
  unfold nullptr in E. lia.
Qed.

(** [test_basic_alloc] passes wherever the buffer is, for every element
    type whose size and alignment together stay below the capacity. *)
Theorem test_basic_alloc_passes (storage : Z) (U : ctype) :
  arena_ok (Arena_ctor storage 1024) -> ctype_typed U ->
  power_of_two (alignof U) -> 0 < sizeof U ->
  sizeof U + alignof U <= 1023 ->
  test_basic_alloc storage U = Return true.
Proof.
  intros Hok [Hsz Hal] Hp Hs0 Hsum. unfold test_basic_alloc.
  assert (H1 : size_t_val 1).
  { split; [lia|]. apply (Z.pow_gt_1 2); lia. }
  assert (Hp1 : power_of_two 1) by (exists 0; split; [lia|done]).
  pose proof Hok as [(Hd & _ & Hend & Hnn) _]. simpl in Hd, Hend, Hnn.
  set (a0 := Arena_ctor storage 1024) in *.
  set (a1 := {| buffer_ := buffer_ a0; offset_ := 1 |}).
  assert (Er : round_up (data (buffer_ a0) + offset_ a0) 1 = storage).
  { unfold round_up. simpl. rewrite Z.div_1_r. lia. }
  assert (E1 : allocate a0 1 1 = (Return storage, a1)).
  { rewrite (allocate_granted a0 1 1 Hok H1 H1 Hp1); rewrite Er;
      unfold a1, capacity, size_or_1; simpl; [|lia..].
    do 3 f_equal. lia. }
  rewrite E1.
  assert (Hok1 : arena_ok a1).
  { split; [apply Hok|]. unfold arena_inv, capacity. simpl. lia. }
  assert (Hown1 : owns a1 storage = true).
  { unfold owns. simpl. apply andb_true_iff.
    split; [apply Z.leb_le|apply Z.ltb_lt]; lia. }
  rewrite Hown1. simpl negb at 1. cbv iota.
  change (used a1 >=? 1) with true. simpl negb. cbv iota.
  pose proof (power_of_two_pos _ Hp) as Hal0.
  pose proof (round_up_bounds (storage + 1) (alignof U) Hal0) as Hb.
  assert (Es : size_or_1 (sizeof U) = sizeof U).
  { unfold size_or_1. destruct (Z.eqb_spec (sizeof U) 0); lia. }
  set (p2 := round_up (storage + 1) (alignof U)) in *.
  set (a2 := {| buffer_ := buffer_ a1; offset_ := p2 - storage + sizeof U |}).
  assert (E2 : allocate a1 (sizeof U) (alignof U) = (Return p2, a2)).
  { rewrite (allocate_granted a1 _ _ Hok1 Hsz Hal Hp); rewrite Es;
      unfold a2, a1, capacity; simpl; fold p2; [done|lia..]. }
  rewrite E2.
  assert (Hown2 : owns a2 p2 = true).
  { unfold owns. simpl. apply andb_true_iff.
    split; [apply Z.leb_le|apply Z.ltb_lt]; lia. }
  rewrite Hown2. simpl. f_equal. apply Z.eqb_eq.
  apply round_up_aligned. lia.
Qed.

(** [test_reset] passes wherever the buffer is, for every default
    alignment up to 128. *)
Theorem test_reset_passes (storage max_align : Z) :
  arena_ok (Arena_ctor storage 256) -> size_t_val max_align ->
  power_of_two max_align -> max_align <= 128 ->
  test_reset storage max_align = Return true.
Proof.
  intros Hok Hal Hp Hmax. unfold test_reset.
  assert (H64 : size_t_val 64).
  { split; [lia|].
    destruct Hok as [(Hd & _ & Hend & _) _]. simpl in Hd, Hend. lia. }
  pose proof Hok as [(Hd & _ & Hend & Hnn) _]. simpl in Hd, Hend, Hnn.
  set (a0 := Arena_ctor storage 256) in *.
  pose proof (power_of_two_pos _ Hp) as Hal0.
  pose proof (round_up_bounds (storage + 0) max_align Hal0) as Hb.
  set (p := round_up (storage + 0) max_align) in *.
  set (a1 := {| buffer_ := buffer_ a0; offset_ := p - storage + 64 |}).
  assert (E1 : allocate a0 64 max_align = (Return p, a1)).
  { rewrite (allocate_granted a0 _ _ Hok H64 Hal Hp);
      unfold a1, capacity, size_or_1; simpl; fold p; [done|lia..]. }
  rewrite E1. unfold used. simpl.
  now destruct (Z.gtb_spec (p - storage + 64) 0); [|lia].
Qed.

End SizeT.

(** * The allocator at a concrete word size *)

(** C1: a successful allocation returns the next free address rounded up to
    the alignment, an address the arena owns, commits the offset
    [(aligned - base) + max(size, 1)], and fails exactly when that offset
    exceeds the capacity. The code does so when nothing wraps
    ([try_allocate_granted]), but not here: on a full 16-byte arena a
    request of [2^64 - 16] bytes is granted, because the new offset wraps
    to 0; the address returned is one past the end of the buffer, which
    the arena does not own, and the offset goes back to 0. *)
Theorem try_allocate_size_wraps :
  let a := arena16 4096 16 in
  let size := 2 ^ 64 - 16 in
  arena_ok 64 a /\ size_t_val 64 size /\ power_of_two 1 /\
  try_allocate 64 a size 1 = (4112, arena16 4096 0) /\
  allocate 64 a size 1 = (Return 4112, arena16 4096 0) /\
  owns a 4112 = false /\
  capacity a < (4112 - data (buffer_ a)) + size.
Proof.
  repeat split; try (vm_compute; congruence); try (simpl; lia).
  exists 0. split; [lia|done].
Qed.

(** C2: [try_allocate] never throws and reports a refusal by a null
    pointer, and a failed attempt, through [try_allocate] or [allocate],
    leaves the offset unchanged. The code does so when the rounding up
    does not wrap ([try_allocate_null_unchanged]), but not here: with the
    buffer in the upper half of the address space, alignment [2^(w-1)]
    makes the aligned address wrap to 0 and a size of [base + 8] makes the
    new offset 8, which is committed; the caller gets a null pointer from
    [try_allocate] and [std::bad_alloc] from [allocate], and the offset
    has moved from 0 to 8. A request of [2^64 - 4] bytes with 8 bytes
    remaining is granted instead of refused. *)
Theorem try_allocate_null_moves_offset :
  let a := arena16 (2 ^ 63 + 4096) 0 in
  let size := 2 ^ 63 + 4096 + 8 in
  arena_ok 64 a /\ size_t_val 64 size /\ power_of_two (2 ^ 63) /\
  try_allocate 64 a size (2 ^ 63) = (nullptr, arena16 (2 ^ 63 + 4096) 8) /\
  allocate 64 a size (2 ^ 63) = (Throw bad_alloc, arena16 (2 ^ 63 + 4096) 8) /\
  arena_ok 32 (arena16 3074424832 0) /\
  try_allocate 32 (arena16 3074424832 0) 3074424840 2147483648
    = (nullptr, arena16 3074424832 8) /\
  remaining 64 (arena16 4096 8) = 8 /\
  try_allocate 64 (arena16 4096 8) (2 ^ 64 - 4) 1 = (4104, arena16 4096 4).
Proof.
  repeat split; try (vm_compute; congruence); try (simpl; lia).
  exists 63. split; [lia|done].
Qed.

(** C3 as the specification states it does not hold: a full arena asked
    for one byte and an empty arena asked for alignment 3 make [allocate]
    throw the same exception, so the two failures cannot be told apart. *)
Lemma allocate_failures_same_exception :
  ~ (exists e_memory e_argument : exception,
       e_memory <> e_argument /\
       fst (allocate 64 (arena16 4096 16) 1 1) = Throw e_memory /\
       fst (allocate 64 (arena16 4096 0) 1 3) = Throw e_argument).
Proof.
  intros (e1 & e2 & Hne & H1 & H2). vm_compute in H1, H2. congruence.
Qed.

Lemma three_not_power_of_two : ~ power_of_two 3.
Proof.
  intros Hp.
  assert (H3 : size_t_val 64 3) by (unfold size_t_val; lia).
  apply (is_power_of_two_spec 64 eq_refl 3 H3) in Hp. discriminate Hp.
Qed.

Lemma one_power_of_two : power_of_two 1.
Proof. exists 0. split; [lia|done]. Qed.

Lemma arena16_ok n : 0 <= n <= 16 -> arena_ok 64 (arena16 4096 n).
Proof.
  intros Hn. unfold arena_ok, vector_ok, arena_inv, capacity. simpl. lia.
Qed.

Lemma allocate_throws_bad_alloc_witness :
  allocate 64 (arena16 4096 0) 1 3 = (Throw bad_alloc, arena16 4096 0) /\
  allocate 64 (arena16 4096 16) 1 1 = (Throw bad_alloc, arena16 4096 16).
Proof.
  assert (H1 : size_t_val 64 1) by (unfold size_t_val; lia).
  assert (H3 : size_t_val 64 3) by (unfold size_t_val; lia).
  assert (Hempty : arena_ok 64 (arena16 4096 0)) by (apply arena16_ok; lia).
  assert (Hfull : arena_ok 64 (arena16 4096 16)) by (apply arena16_ok; lia).
  split.
  - destruct (allocate_throws_bad_alloc 64 eq_refl _ 1 3 Hempty H1 H3)
      as [Hbad _].
    apply Hbad, three_not_power_of_two.
  - destruct (allocate_throws_bad_alloc 64 eq_refl _ 1 1 Hfull H1 H1)
      as [_ Hshort].
    apply Hshort.
    + apply one_power_of_two.
    + vm_compute. reflexivity.
    + vm_compute. reflexivity.
Defined.

(** A program that constructs an arena, allocates, opens and closes a
    scope, moves the arena and rewinds. *)
Lemma offset_within_capacity_witness :
  0 <= used (arena16 4096 4) <= capacity (arena16 4096 4).
Proof.
  assert (Hty : Forall (op_typed 64)
           [new_Arena 4096 16; call_request 0 (req_allocate 8 8);
            new_Scope 0; call_request 0 (req_make_array uint64_t 1);
            delete_Scope 0; move_Arena 0;
            call_request 1 (req_try_allocate 3 2); assign_Arena 0 1;
            call_rewind 0 {| offset := 4 |}]).
  { repeat (apply List.Forall_cons || apply List.Forall_nil);
      simpl; unfold ctype_typed, size_t_val; simpl; lia. }
  destruct (offset_within_capacity 64 eq_refl _ Hty) as [_ Hreach].
  apply (Hreach 0%nat). vm_compute. reflexivity.
Defined.

Lemma rewind_restores_mark_witness :
  used (rewind
          (serve_all 64 [req_allocate 4 4; req_try_allocate 1 1;
                         req_make uint64_t] (arena16 4096 3))
          (mark (arena16 4096 3))) = 3.
Proof.
  apply (rewind_restores_mark 64 (arena16 4096 3) (mark (arena16 4096 3))).
  unfold arena_inv, capacity. simpl. lia.
Defined.

Lemma reset_is_rewind_to_empty_witness :
  used (reset (arena16 4096 8)) = 0 /\
  rewind (arena16 4096 8) (mark (arena16 4096 0)) = reset (arena16 4096 8).
Proof.
  apply (reset_is_rewind_to_empty (arena16 4096 8) (arena16 4096 0)).
  - unfold capacity. simpl. lia.
  - reflexivity.
Defined.

(** An arena with 8 bytes used, inside a scope opened when 4 were. *)
Lemma scope_rewinds_once_witness :
  let st := {| arenas := [arena16 4096 8];
               scopes := [{| a_ := Some 0%nat; m_ := {| offset := 4 |} |}] |} in
  let body :=
    Request 0 (req_allocate 2 2)
      (Scoped 0 (Request 0 (req_make uint64_t) Done)
         (Request 0 (req_try_allocate 1 1) Done)) in
  let ops := [call_request 0 (req_allocate 2 2); call_reset 0;
              new_Arena 8192 32; move_Arena 1; new_Scope 0; move_Scope 0;
              call_rewind 0 {| offset := 12 |}] in
  (exists a', arenas (exec 64 (Scoped 0 body Done) st) !! 0%nat = Some a' /\
              used a' = 8) /\
  (exists a', arenas (Scope_dtor (run 64 (Scope_ctor st 0) ops) 1) !! 0%nat
                = Some a' /\ used a' = 8).
Proof.
  intros st body ops.
  assert (Hst : state_inv st).
  { split; (constructor; [|constructor]); unfold arena_inv, capacity;
      simpl; lia. }
  destruct (scope_rewinds_once 64 eq_refl st Hst) as (Hclose & Hafter & _).
  split.
  - exact (proj2 (Hclose 0%nat (arena16 4096 8) body eq_refl)).
  - apply (Hafter 0%nat (arena16 4096 8) ops eq_refl).
    repeat (apply List.Forall_cons || apply List.Forall_nil); simpl;
      repeat split; lia.
Defined.

(** C6 as the specification states it does not hold: a scope opened on a
    16-byte arena with 4 bytes used still holds its arena and its mark
    after 4 more bytes are allocated and the arena is moved into a new
    one, but its destructor's rewind is out of range of the emptied
    source: the source reports 0 bytes used and the new arena 8, not 4. *)
Lemma scope_of_moved_arena_restores_nothing :
  let st := {| arenas := [arena16 4096 4]; scopes := [] |} in
  let moved := run 64 (Scope_ctor st 0)
                 [call_request 0 (req_allocate 4 1); move_Arena 0] in
  let closed := Scope_dtor moved 0 in
  scopes moved !! 0%nat = Some {| a_ := Some 0%nat; m_ := {| offset := 4 |} |}
  /\ used <$> arenas closed !! 0%nat = Some 0
  /\ used <$> arenas closed !! 1%nat = Some 8
  /\ ~ (exists a', arenas closed !! 0%nat = Some a' /\ used a' = 4).
Proof.
  vm_compute. repeat split.
  intros (a' & Ha & Hu). inversion Ha; subst. discriminate Hu.
Qed.

(** C7 as the specification states it does not hold: the source of a move
    does not keep its capacity. After the move of a 16-byte arena with 8
    bytes used, the source has capacity 0. *)
Lemma moved_from_capacity_changes :
  let src := arena16 4096 8 in
  let '(dst, emptied) := Arena_move_ctor src in
  used dst = used src /\ capacity dst = capacity src /\
  used emptied = 0 /\ capacity emptied <> capacity src.
Proof. vm_compute. repeat split; congruence. Qed.

Lemma arena_move_transfers_witness :
  let st := {| arenas := [arena16 4096 8; arena16 8192 0]; scopes := [] |} in
  (exists dst emptied,
     arenas (step 64 st (move_Arena 0)) !! 2%nat = Some dst /\
     arenas (step 64 st (move_Arena 0)) !! 0%nat = Some emptied /\
     used dst = 8 /\ capacity dst = 16 /\
     used emptied = 0 /\ capacity emptied = 0) /\
  (exists dst emptied,
     arenas (step 64 st (assign_Arena 1 0)) !! 1%nat = Some dst /\
     arenas (step 64 st (assign_Arena 1 0)) !! 0%nat = Some emptied /\
     used dst = 8 /\ capacity dst = 16 /\
     used emptied = 0 /\ capacity emptied = 0).
Proof.
  intros st.
  destruct (arena_move_transfers 64 st 0%nat (arena16 4096 8) eq_refl)
    as (Hctor & Hassign & _).
  split; [exact Hctor|].
  apply (Hassign 1%nat (arena16 8192 0)); [lia|reflexivity].
Defined.

(** C10: [make_array<T>(count)] asks [allocate] for [sizeof(T) * count]
    bytes computed modulo [2^w]; with [T = std::uint64_t] and
    [count = 2^61 + 1] on a 64-bit target the product wraps to 8, and the
    call succeeds on a 16-byte arena, reserving 8 bytes instead of
    failing. *)
Theorem make_array_size_wraps :
  (forall w a T count,
     make_array w a T count =
       if count =? 0 then (Return nullptr, a)
       else allocate w a ((sizeof T * count) mod 2 ^ w) (alignof T)) /\
  (exists T count a,
     ctype_typed 64 T /\ size_t_val 64 count /\ arena_ok 64 a /\
     2 ^ 64 <= sizeof T * count /\
     capacity a < sizeof T * count /\
     exists p a',
       make_array 64 a T count = (Return p, a') /\ p <> nullptr /\
       used a' - used a < sizeof T * count).
Proof.
  split; [done|].
  exists uint64_t, (2 ^ 61 + 1), (arena16 4096 0).
  split; [unfold ctype_typed, size_t_val; simpl; lia|].
  split; [unfold size_t_val; lia|].
  split; [apply arena16_ok; lia|].
  split; [vm_compute; congruence|]. split; [vm_compute; congruence|].
  exists 4096, (arena16 4096 8).
  split; [vm_compute; reflexivity|].
  split; [done|vm_compute; congruence].
Qed.

(** * Instances of the further properties *)

Lemma size_t_val_64 k : 0 <= k < 2 ^ 32 -> size_t_val 64 k.
Proof. unfold size_t_val. lia. Qed.

Lemma power_of_two_8 : power_of_two 8.
Proof. exists 3. split; [lia|done]. Qed.

Lemma arena16_in_range n size alignment :
  0 <= alignment < 2 ^ 32 -> 0 <= size < 2 ^ 32 ->
  request_in_range 64 (arena16 4096 n) size alignment.
Proof.
  intros Hal Hs. unfold request_in_range, size_or_1. simpl.
  destruct (size =? 0); lia.
Qed.

Lemma is_power_of_two_correct_witness :
  (is_power_of_two 64 4096 = true <-> exists k, 0 <= k < 64 /\ 4096 = 2 ^ k)
  /\ is_power_of_two 64 0 = false.
Proof.
  apply (is_power_of_two_correct 64 eq_refl 4096), size_t_val_64. lia.
Defined.

Lemma align_up_least_witness :
  let r := align_up 64 4099 8 in
  r mod 8 = 0 /\ 4099 <= r < 4099 + 8 /\
  forall m, m mod 8 = 0 -> 4099 <= m -> r <= m.
Proof.
  apply (align_up_least 64 eq_refl 4099 8);
    [apply size_t_val_64; lia..|apply power_of_two_8|lia].
Defined.

Lemma align_up_wraps_witness : align_up 64 (2 ^ 64 - 3) 8 = 0.
Proof.
  apply (align_up_wraps 64 eq_refl (2 ^ 64 - 3) 8);
    [unfold size_t_val; lia|apply size_t_val_64; lia|apply power_of_two_8
    |lia].
Defined.

Lemma align_up_idempotent_witness :
  align_up 64 4099 8 mod 8 = 0 /\
  (4099 mod 8 = 0 -> align_up 64 4099 8 = 4099) /\
  align_up 64 (align_up 64 4099 8) 8 = align_up 64 4099 8.
Proof.
  apply (align_up_idempotent 64 eq_refl 4099 8);
    [apply size_t_val_64; lia..|apply power_of_two_8].
Defined.

Lemma Arena_ctor_fresh_witness :
  let a := Arena_ctor 4096 1024 in
  used a = 0 /\ capacity a = 1024 /\ remaining 64 a = 1024 /\
  empty a = true /\ arena_inv a.
Proof. apply (Arena_ctor_fresh 64 4096 1024), size_t_val_64. lia. Defined.

Lemma remaining_complements_used_witness :
  let a := arena16 4096 3 in
  used a + remaining 64 a = capacity a /\
  0 <= remaining 64 a <= capacity a /\
  (empty a = true <-> remaining 64 a = capacity a).
Proof.
  apply (remaining_complements_used 64 eq_refl (arena16 4096 3)).
  - apply (arena16_ok 3). lia.
  - unfold capacity. simpl. lia.
Defined.

Lemma try_allocate_advances_witness :
  let a := arena16 4096 3 in
  let a' := arena16 4096 12 in
  used a + size_or_1 4 <= used a' < used a + size_or_1 4 + 8 /\
  buffer_ a' = buffer_ a /\ arena_ok 64 a'.
Proof.
  apply (try_allocate_advances 64 eq_refl (arena16 4096 3) 4 8 4104);
    [apply arena16_ok; lia|apply size_t_val_64; lia..
    |apply arena16_in_range; lia|vm_compute; reflexivity|done].
Defined.

Lemma try_allocate_block_in_buffer_witness :
  let a := arena16 4096 3 in
  4104 mod 8 = 0 /\
  data (buffer_ a) + used a <= 4104 /\
  4104 + size_or_1 4 = data (buffer_ a) + used (arena16 4096 12) /\
  4104 + size_or_1 4 <= data (buffer_ a) + capacity a /\
  owns a 4104 = true /\ owns a (4104 + size_or_1 4 - 1) = true.
Proof.
  apply (try_allocate_block_in_buffer 64 eq_refl (arena16 4096 3) 4 8 4104
           (arena16 4096 12));
    [apply arena16_ok; lia|apply size_t_val_64; lia..
    |apply arena16_in_range; lia|vm_compute; reflexivity|done].
Defined.

Lemma try_allocate_unaligned_witness :
  let a := arena16 4096 3 in
  try_allocate 64 a 0 1 =
    if used a + size_or_1 0 >? capacity a then (nullptr, a)
    else (data (buffer_ a) + used a,
          {| buffer_ := buffer_ a; offset_ := used a + size_or_1 0 |}).
Proof.
  apply (try_allocate_unaligned 64 eq_refl (arena16 4096 3) 0);
    [apply arena16_ok; lia|apply size_t_val_64; lia
    |apply arena16_in_range; lia].
Defined.

Lemma full_arena_refuses_witness :
  try_allocate 64 (arena16 4096 16) 1 1 = (nullptr, arena16 4096 16) /\
  allocate 64 (arena16 4096 16) 1 1 = (Throw bad_alloc, arena16 4096 16).
Proof.
  apply (full_arena_refuses 64 eq_refl (arena16 4096 16) 1 1);
    [apply arena16_ok; lia|reflexivity|apply size_t_val_64; lia..
    |apply arena16_in_range; lia].
Defined.

Lemma try_allocate_result_aligned_witness :
  let p := fst (try_allocate 64 (arena16 4096 3) 4 8) in
  p mod 8 = 0 /\ (p <> nullptr -> power_of_two 8).
Proof.
  apply (try_allocate_result_aligned 64 eq_refl (arena16 4096 3) 4 8),
    size_t_val_64. lia.
Defined.

Lemma empty_buffer_refuses_witness :
  Arena_ctor 4096 0 = Arena_default /\
  snd (Arena_move_ctor (arena16 4096 8)) = Arena_default /\
  try_allocate 64 Arena_default 1 1 = (nullptr, Arena_default) /\
  allocate 64 Arena_default 1 1 = (Throw bad_alloc, Arena_default) /\
  forall p, owns Arena_default p = false.
Proof.
  apply (empty_buffer_refuses 64 eq_refl 4096 1 1 (arena16 4096 8));
    apply size_t_val_64; lia.
Defined.

Lemma sample_requests_sane n :
  Forall (request_sane 64 (arena16 4096 n))
    [req_allocate 4 4; req_try_allocate 1 1; req_make uint64_t].
Proof.
  repeat (apply List.Forall_cons || apply List.Forall_nil);
    (split; [simpl; unfold ctype_typed, size_t_val; simpl; lia
            |apply arena16_in_range; simpl; lia]).
Qed.

Lemma used_monotone_witness :
  let a := arena16 4096 3 in
  let rs := [req_allocate 4 4; req_try_allocate 1 1; req_make uint64_t] in
  used a <= used (serve_all 64 rs a) <= capacity a.
Proof.
  apply (used_monotone 64 eq_refl (arena16 4096 3));
    [apply arena16_ok; lia|apply sample_requests_sane].
Defined.

Lemma granted_blocks_disjoint_witness :
  4096 + size_or_1 3 <= 4105 /\ 4096 < 4105.
Proof.
  apply (granted_blocks_disjoint 64 eq_refl (arena16 4096 0) 3 1 4096
           (arena16 4096 3)
           [req_allocate 4 4; req_try_allocate 1 1; req_make uint64_t]
           0 1 4105 (arena16 4096 10)).
  - apply arena16_ok; lia.
  - apply size_t_val_64; lia.
  - apply size_t_val_64; lia.
  - apply arena16_in_range; lia.
  - vm_compute. reflexivity.
  - done.
  - apply sample_requests_sane.
  - apply size_t_val_64; lia.
  - apply size_t_val_64; lia.
  - apply arena16_in_range; lia.
  - vm_compute. reflexivity.
  - done.
Defined.

Lemma rewind_replays_witness :
  let a := arena16 4096 3 in
  let rs := [req_allocate 4 4; req_try_allocate 1 1; req_make uint64_t] in
  rewind (serve_all 64 rs a) (mark a) = a /\
  try_allocate 64 (rewind (serve_all 64 rs a) (mark a)) 4 8
    = try_allocate 64 a 4 8.
Proof.
  apply (rewind_replays 64 (arena16 4096 3)).
  unfold arena_inv, capacity. simpl. lia.
Defined.


Lemma buffers_stable_witness :
  let st := {| arenas := [arena16 4096 8]; scopes := [] |} in
  let ops := [call_request 0 (req_allocate 4 1); call_reset 0; new_Scope 0;
              call_request 0 (req_make uint64_t); delete_Scope 0;
              call_rewind 0 {| offset := 5 |}] in
  exists a', arenas (run 64 st ops) !! 0%nat = Some a' /\
    capacity a' = capacity (arena16 4096 8) /\
    forall p, owns a' p = owns (arena16 4096 8) p.
Proof.
  apply (buffers_stable 64); [|reflexivity].
  repeat (apply List.Forall_cons || apply List.Forall_nil); reflexivity.
Defined.

Lemma exec_frame_witness :
  let st := {| arenas := [arena16 4096 0; arena16 8192 5]; scopes := [] |} in
  let b := Scoped 0 (Request 0 (req_allocate 4 1) Done)
             (Request 0 (req_make uint64_t) Done) in
  arenas (exec 64 b st) !! 1%nat = arenas st !! 1%nat.
Proof.
  intros st b.
  apply (exec_frame 64 b st 0%nat 1%nat); [now eexists|simpl; tauto|lia].
Defined.


Lemma test_basic_alloc_passes_witness :
  test_basic_alloc 64 4096 uint64_t = Return true.
Proof.
  apply (test_basic_alloc_passes 64 eq_refl 4096 uint64_t).
  - unfold arena_ok, vector_ok, arena_inv, capacity. simpl. lia.
  - split; apply size_t_val_64; simpl; lia.
  - apply power_of_two_8.
  - simpl. lia.
  - simpl. lia.
Defined.

Lemma test_reset_passes_witness : test_reset 64 4096 16 = Return true.
Proof.
  apply (test_reset_passes 64 eq_refl 4096 16).
  - unfold arena_ok, vector_ok, arena_inv, capacity. simpl. lia.
  - apply size_t_val_64. lia.
  - exists 4. split; [lia|done].
  - lia.
Defined.

